(** * LidarCode: the IMU firmware and the storage schema

    A shallow embedding of
    - [ArduinoMKRZero/IMU_Data_Collection_v1/IMU_Data_Collection_v1.ino],
      the Arduino MKR Zero sketch that streams IMU samples as JSON lines, and
    - the SQL schema document of the recorder (its [CREATE TABLE] statements
      and its notes),
    together with the session state machine and the parser of IMU events of
    the design document, and the properties of them that the design document
    states. *)

From Stdlib Require Import ZArith QArith String Ascii List Lia Sorted.
From stdpp Require Import base option list strings gmap.
Import ListNotations.

Local Open Scope Z_scope.

(** ** The Arduino core and the MKRIMU library

    The sketch is compiled against the Arduino core ([micros], [String],
    [Serial]) and the MKRIMU library.  Neither is part of the repository, so
    the two C number types, the one floating-point operation of the sketch and
    the two [String] constructors it calls are kept abstract. *)

Class Platform := {
  (** C [double] and [float] *)
  double : Type;
  float : Type;
  (** the order of [double] *)
  double_le : double -> double -> Prop;
  (** [fullMicros / 1e6]: a [uint64_t] converted to [double] and divided *)
  u64_div_1e6 : Z -> double;
  (** [String(double value, unsigned char decimalPlaces)] *)
  String_double : double -> nat -> string;
  (** [String(float value, unsigned char decimalPlaces)] *)
  String_float : float -> nat -> string;
}.

Module Firmware.

(** Unsigned wrap-around of [uint32_t] and [uint64_t]. *)
Definition wrap32 (z : Z) : Z := z mod 2 ^ 32.
Definition wrap64 (z : Z) : Z := z mod 2 ^ 64.

(** [micros()]: the microseconds since boot, as the core's 32-bit counter
    shows them when [T] microseconds have really passed. *)
Definition micros (T : Z) : Z := wrap32 T.

(** The sketch's globals, and the lines written to [Serial] so far. *)
Record mcu := {
  lastMicros : Z;           (* volatile uint32_t lastMicros = 0; *)
  extendedMicros : Z;       (* volatile uint64_t extendedMicros = 0; *)
  Serial : list string;
}.

Definition boot : mcu :=
  {| lastMicros := 0; extendedMicros := 0; Serial := [] |}.

(** [Serial.println(line)] *)
Definition println (line : string) (s : mcu) : mcu :=
  {| lastMicros := lastMicros s;
     extendedMicros := extendedMicros s;
     Serial := Serial s ++ [line] |}.

(** [updateMicros()], called when [T] microseconds have passed since boot. *)
Definition updateMicros (T : Z) (s : mcu) : mcu :=
  let now := micros T in
  {| lastMicros := now;
     extendedMicros :=
       if now <? lastMicros s
       then wrap64 (extendedMicros s + Z.shiftl 1 32)
       else extendedMicros s;
     Serial := Serial s |}.

(** [uint64_t fullMicros = extendedMicros + lastMicros;] *)
Definition fullMicros (s : mcu) : Z :=
  wrap64 (extendedMicros s + lastMicros s).

(** [getSecondsSinceBoot()].  Interrupts are off between the update and the
    read of the two globals, so the three steps are one. *)
Definition getSecondsSinceBoot `{Platform} (T : Z) (s : mcu) : double * mcu :=
  let s' := updateMicros T s in
  (u64_div_1e6 (fullMicros s'), s').

(** Successive calls made at the times [Ts]: the values returned, and the
    globals after the last call. *)
Fixpoint calls `{Platform} (Ts : list Z) (s : mcu) : list double * mcu :=
  match Ts with
  | [] => ([], s)
  | T :: Ts' =>
      let '(t, s) := getSecondsSinceBoot T s in
      let '(ts, s) := calls Ts' s in
      (t :: ts, s)
  end.

(** Each call follows the one before it by less than 2^32 microseconds,
    [prev] being the time of the call (or of the boot) before the first. *)
Fixpoint spaced_from (prev : Z) (Ts : list Z) : Prop :=
  match Ts with
  | [] => True
  | T :: Ts' => prev <= T < prev + 2 ^ 32 /\ spaced_from T Ts'
  end.

(** The same between the calls only: nothing is asked of the first one. *)
Definition spaced (Ts : list Z) : Prop :=
  match Ts with
  | [] => True
  | T :: Ts' => 0 <= T /\ spaced_from T Ts'
  end.

(** The globals hold the time [T]: the low word in [lastMicros], the rest in
    [extendedMicros]. *)
Definition tracks (s : mcu) (T : Z) : Prop :=
  0 <= T < 2 ^ 64 /\
  lastMicros s = T mod 2 ^ 32 /\
  extendedMicros s = 2 ^ 32 * (T / 2 ^ 32).

(** The double quote, which the sketch writes as an escape inside its string
    literals. *)
Definition dq : string := String "034"%char EmptyString.

(** The string literals of the sketch. *)
Definition lit_starting : string := "Starting...".
Definition lit_begin_failed : string := "IMU.begin() failed".
Definition lit_begin_succeeded : string := "IMU.begin() succeeded".
(* "{\"error\":\"sensor read failed\"}" *)
Definition lit_error : string :=
  "{" +:+ dq +:+ "error" +:+ dq +:+ ":" +:+ dq +:+ "sensor read failed" +:+ dq +:+ "}".
(* "{\"t\":" *)
Definition lit_t : string := "{" +:+ dq +:+ "t" +:+ dq +:+ ":".
(* ",\"acc\":[" *)
Definition lit_acc : string := "," +:+ dq +:+ "acc" +:+ dq +:+ ":[".
(* ",\"gyro\":[" *)
Definition lit_gyro : string := "," +:+ dq +:+ "gyro" +:+ dq +:+ ":[".
(* ",\"mag\":[" *)
Definition lit_mag : string := "," +:+ dq +:+ "mag" +:+ dq +:+ ":[".

(** [setup()].  [begin_ok] is what [IMU.begin()] returns.  The wait
    [while (!Serial);] ends when the host opens the port; the model starts
    there. *)
Definition setup (begin_ok : bool) (s : mcu) : mcu :=
  let s := println lit_starting s in
  if negb begin_ok
  then println lit_begin_failed s
  else println lit_begin_succeeded s.

(** What the IMU library answers during one pass of [loop], and the time of
    the pass.  A read that returns 0 is [None]; one that returns 1 gives the
    three values it stored through its reference arguments. *)
Record pass `{Platform} := {
  now_us : Z;
  accelerationAvailable : bool;
  gyroscopeAvailable : bool;
  magneticFieldAvailable : bool;
  readAcceleration : option (float * float * float);
  readGyroscope : option (float * float * float);
  readMagneticField : option (float * float * float);
}.

(** [String(x, n) + "," + String(y, n) + "," + String(z, n) + "]"] *)
Definition triple `{Platform} (v : float * float * float) (n : nat) : string :=
  let '(x, y, z) := v in
  String_float x n +:+ "," +:+ String_float y n +:+ "," +:+ String_float z n +:+ "]".

(** [String json] as [loop] first builds it. *)
Definition record_head `{Platform} (t : double)
    (acc gyro : float * float * float) : string :=
  lit_t +:+ String_double t 6 +:+
  lit_acc +:+ triple acc 4 +:+
  lit_gyro +:+ triple gyro 4.

(** [json] as [loop] prints it, [mag] being the reading when [mag_ok]
    holds. *)
Definition record_line `{Platform} (t : double)
    (acc gyro : float * float * float)
    (mag : option (float * float * float)) : string :=
  let json := record_head t acc gyro in
  let json :=
    match mag with
    | Some m => json +:+ (lit_mag +:+ triple m 1)
    | None => json
    end in
  json +:+ "}".

(** [loop()] *)
Definition loop `{Platform} (p : pass) (s : mcu) : mcu :=
  if accelerationAvailable p && gyroscopeAvailable p then
    match readAcceleration p, readGyroscope p with
    | Some acc, Some gyro =>
        let '(t, s) := getSecondsSinceBoot (now_us p) s in
        let mag_ok :=
          if magneticFieldAvailable p then readMagneticField p else None in
        println (record_line t acc gyro mag_ok) s
    | _, _ => println lit_error s
    end
  else s.

(** The sketch from boot: [setup] once, then [loop] for each pass. *)
Definition run `{Platform} (begin_ok : bool) (passes : list pass) : mcu :=
  fold_left (fun s p => loop p s) passes (setup begin_ok boot).

(** Both reads of a pass are made and succeed. *)
Definition reads_succeed `{Platform} (p : pass) : Prop :=
  accelerationAvailable p && gyroscopeAvailable p = true /\
  is_Some (readAcceleration p) /\ is_Some (readGyroscope p).

(** Both reads of a pass are made, and one of them fails. *)
Definition read_fails `{Platform} (p : pass) : Prop :=
  accelerationAvailable p && gyroscopeAvailable p = true /\
  (readAcceleration p = None \/ readGyroscope p = None).

(** The magnetometer reading of a pass: none when the field is unavailable or
    its read fails. *)
Definition mag_reading `{Platform} (p : pass) : option (float * float * float) :=
  if magneticFieldAvailable p then readMagneticField p else None.

(** *** The passes and the clock, for the properties of a whole run *)

(** The pass prints a line: data of both sensors is available. *)
Definition speaks `{Platform} (p : pass) : bool :=
  accelerationAvailable p && gyroscopeAvailable p.

(** The pass calls [getSecondsSinceBoot]: both reads are made and succeed. *)
Definition stamped `{Platform} (p : pass) : bool :=
  speaks p &&
  bool_decide (is_Some (readAcceleration p)) &&
  bool_decide (is_Some (readGyroscope p)).

(** The two globals of the clock. *)
Definition clock (s : mcu) : Z * Z := (lastMicros s, extendedMicros s).

(** The times never go back, [prev] being the time before the first. *)
Fixpoint ascending_from (prev : Z) (Ts : list Z) : Prop :=
  match Ts with
  | [] => True
  | T :: Ts' => prev <= T /\ ascending_from T Ts'
  end.

(** The microseconds that advance, at each call, by the time since the call
    before taken modulo 2^32; [prevT] is the time of the call before the
    first and [prevR] the microseconds then. *)
Fixpoint reported (prevT prevR : Z) (Ts : list Z) : list Z :=
  match Ts with
  | [] => []
  | T :: Ts' =>
      let R := prevR + (T - prevT) mod 2 ^ 32 in
      R :: reported T R Ts'
  end.

(** The globals are within their types, [extendedMicros] holds whole wraps
    of the 32-bit counter, and their sum is below 2^64. *)
Definition clock_in_range (s : mcu) : Prop :=
  (0 <= lastMicros s < 2 ^ 32) /\
  (0 <= extendedMicros s < 2 ^ 64) /\
  extendedMicros s mod 2 ^ 32 = 0 /\
  fullMicros s = extendedMicros s + lastMicros s.

(** The times at which the passes call [getSecondsSinceBoot]. *)
Definition stamp_times `{Platform} (passes : list pass) : list Z :=
  now_us <$> List.filter stamped passes.

(** [line] is what the pass [p], which prints a line, prints: a record of
    its readings with some time, or the error object. *)
Definition line_of_pass `{Platform} (p : pass) (line : string) : Prop :=
  if stamped p
  then exists t acc gyro,
         readAcceleration p = Some acc /\ readGyroscope p = Some gyro /\
         line = record_line t acc gyro (mag_reading p)
  else line = lit_error.

End Firmware.

(** ** The shape of an IMU event line

    A recogniser for the lines
    [{"t":N,"acc":[N,N,N],"gyro":[N,N,N]}] and
    [{"t":N,"acc":[N,N,N],"gyro":[N,N,N],"mag":[N,N,N]}],
    each [N] a number of the JSON grammar.  Whatever it accepts is one JSON
    object with a numeric [t], 3-element arrays [acc] and [gyro] and at most
    one further member, a 3-element array [mag].  The recogniser is written
    from JSON and from the names of the fields alone: it uses nothing of the
    sketch. *)

Module Json.

Definition code (c : ascii) : N := N_of_ascii c.

Definition is_digit (c : ascii) : bool :=
  ((48 <=? code c) && (code c <=? 57))%N.

Definition is_digit19 (c : ascii) : bool :=
  ((49 <=? code c) && (code c <=? 57))%N.

(** The states of a recogniser for JSON's numbers: an optional minus; then
    either 0, or a digit from 1 to 9 and any digits; then, optionally, a dot
    and one digit or more; then, optionally, e or E, an optional sign, and one
    digit or more. *)
Inductive num_state :=
  | NStart | NMinus | NZero | NInt | NDot | NFrac | NExp | NExpSign | NExpDigits.

Definition is_char (c : ascii) (n : N) : bool := (code c =? n)%N.

Definition num_step (st : num_state) (c : ascii) : option num_state :=
  let minus := is_char c 45 in
  let plus := is_char c 43 in
  let dot := is_char c 46 in
  let e := is_char c 101 || is_char c 69 in
  match st with
  | NStart =>
      if minus then Some NMinus
      else if is_char c 48 then Some NZero
      else if is_digit19 c then Some NInt else None
  | NMinus =>
      if is_char c 48 then Some NZero
      else if is_digit19 c then Some NInt else None
  | NZero =>
      if dot then Some NDot else if e then Some NExp else None
  | NInt =>
      if is_digit c then Some NInt
      else if dot then Some NDot else if e then Some NExp else None
  | NDot => if is_digit c then Some NFrac else None
  | NFrac =>
      if is_digit c then Some NFrac else if e then Some NExp else None
  | NExp =>
      if plus || minus then Some NExpSign
      else if is_digit c then Some NExpDigits else None
  | NExpSign => if is_digit c then Some NExpDigits else None
  | NExpDigits => if is_digit c then Some NExpDigits else None
  end.

Fixpoint num_run (st : num_state) (s : string) : option num_state :=
  match s with
  | EmptyString => Some st
  | String c s' =>
      match num_step st c with
      | Some st' => num_run st' s'
      | None => None
      end
  end.

Definition num_final (st : num_state) : bool :=
  match st with
  | NZero | NInt | NFrac | NExpDigits => true
  | _ => false
  end.

(** [s] is a JSON number. *)
Definition json_number (s : string) : bool :=
  match num_run NStart s with
  | Some st => num_final st
  | None => false
  end.

(** The characters a JSON number is written with. *)
Definition is_num_char (c : ascii) : bool :=
  is_digit c || is_char c 45 || is_char c 43 || is_char c 46
  || is_char c 101 || is_char c 69.

Fixpoint all_chars (p : ascii -> bool) (s : string) : bool :=
  match s with
  | EmptyString => true
  | String c s' => p c && all_chars p s'
  end.

(** The longest prefix of [s] made of [p] characters, and what follows. *)
Fixpoint span (p : ascii -> bool) (s : string) : string * string :=
  match s with
  | EmptyString => (EmptyString, EmptyString)
  | String c s' =>
      if p c then let '(tok, rest) := span p s' in (String c tok, rest)
      else (EmptyString, s)
  end.

(** [s] without its prefix [lit]. *)
Fixpoint expect (lit s : string) : option string :=
  match lit with
  | EmptyString => Some s
  | String c lit' =>
      match s with
      | String d s' => if Ascii.eqb c d then expect lit' s' else None
      | EmptyString => None
      end
  end.

(** A JSON number at the head of [s], as written, and what follows it. *)
Definition number (s : string) : option (string * string) :=
  let '(tok, rest) := span is_num_char s in
  if json_number tok then Some (tok, rest) else None.

(** [N,N,N]] at the head of [s]: the three numbers and what follows. *)
Definition numbers3 (s : string) : option ((string * string * string) * string) :=
  '(x, s) ← number s;
  s ← expect "," s;
  '(y, s) ← number s;
  s ← expect "," s;
  '(z, s) ← number s;
  s ← expect "]" s;
  Some ((x, y, z), s).

(** An IMU event, each number as the line writes it. *)
Record imu_event := {
  ev_t : string;
  ev_acc : string * string * string;
  ev_gyro : string * string * string;
  ev_mag : option (string * string * string);
}.

(** The double quote of JSON. *)
Definition quote : ascii := "034"%char.

(** The name of a member between quotes, and the colon after it. *)
Definition key (name : string) : string :=
  String quote (name +:+ String quote ":").

(** The recogniser of an IMU event: one JSON object with a number [t], the
    3-element arrays of numbers [acc] and [gyro], and optionally the
    3-element array [mag], and nothing after it. *)
Definition parse_imu_line (line : string) : option imu_event :=
  s ← expect ("{" +:+ key "t") line;
  '(t, s) ← number s;
  s ← expect ("," +:+ key "acc" +:+ "[") s;
  '(acc, s) ← numbers3 s;
  s ← expect ("," +:+ key "gyro" +:+ "[") s;
  '(gyro, s) ← numbers3 s;
  match expect "}" s with
  | Some EmptyString =>
      Some {| ev_t := t; ev_acc := acc; ev_gyro := gyro; ev_mag := None |}
  | _ =>
      s ← expect ("," +:+ key "mag" +:+ "[") s;
      '(mag, s) ← numbers3 s;
      match expect "}" s with
      | Some EmptyString =>
          Some {| ev_t := t; ev_acc := acc; ev_gyro := gyro; ev_mag := Some mag |}
      | _ => None
      end
  end.

(** The text of a 3-element array of numbers. *)
Definition text3 (v : string * string * string) : string :=
  let '(x, y, z) := v in "[" +:+ x +:+ "," +:+ y +:+ "," +:+ z +:+ "]".

(** The text of an IMU event: one JSON object with the members [t], [acc]
    and [gyro], and [mag] when the event has it, each number as the event
    holds it. *)
Definition event_text (ev : imu_event) : string :=
  "{" +:+ key "t" +:+ ev_t ev +:+
  "," +:+ key "acc" +:+ text3 (ev_acc ev) +:+
  "," +:+ key "gyro" +:+ text3 (ev_gyro ev) +:+
  match ev_mag ev with
  | Some m => "," +:+ key "mag" +:+ text3 m
  | None => EmptyString
  end +:+ "}".

(** The JSON object [{"error":"sensor read failed"}]. *)
Definition error_object : string :=
  "{" +:+ key "error" +:+ String quote ("sensor read failed" +:+ String quote "}").

(** No character of a number starts [rest]. *)
Definition stops (rest : string) : Prop :=
  match rest with
  | EmptyString => True
  | String c _ => is_num_char c = false
  end.

End Json.

(** ** The lines of the sketch as events

    What the recogniser is to find in the lines of [loop]. *)

Module Events.
Import Firmware Json.

(** The three values of a reading are written as JSON numbers when printed
    with [n] decimal places. *)
Definition printable3 `{Platform} (n : nat)
    (v : option (float * float * float)) : Prop :=
  match v with
  | Some (x, y, z) =>
      json_number (String_float x n) = true /\
      json_number (String_float y n) = true /\
      json_number (String_float z n) = true
  | None => True
  end.

(** The readings of a pass are written as JSON numbers by [loop]. *)
Definition printable `{Platform} (p : pass) : Prop :=
  printable3 4 (readAcceleration p) /\
  printable3 4 (readGyroscope p) /\
  printable3 1 (readMagneticField p).

Definition strings3 `{Platform} (n : nat) (v : float * float * float)
    : string * string * string :=
  let '(x, y, z) := v in (String_float x n, String_float y n, String_float z n).

(** The event with the time [t] and the readings [acc], [gyro] and [mag],
    each number written with the decimal places of the sketch. *)
Definition event_of `{Platform} (t : double)
    (acc gyro : float * float * float)
    (mag : option (float * float * float)) : imu_event :=
  {| ev_t := String_double t 6;
     ev_acc := strings3 4 acc;
     ev_gyro := strings3 4 gyro;
     ev_mag := strings3 1 <$> mag |}.



(** The pass adds one line to the serial output, and the line is the text of
    an IMU event. *)
Definition emits_record `{Platform} (p : pass) (s : mcu) : Prop :=
  exists ev, Serial (loop p s) = Serial s ++ [event_text ev].

(** [line] is what the host is to find for the pass [p], which prints a
    line: the error object when a read failed; when both reads succeeded, an
    event with the readings of the pass, and with [mag] exactly when the
    magnetometer was available and read. *)
Definition line_for `{Platform} (p : pass) (line : string) : Prop :=
  (read_fails p /\ line = error_object) \/
  (exists t acc gyro,
     readAcceleration p = Some acc /\ readGyroscope p = Some gyro /\
     parse_imu_line line = Some (event_of t acc gyro (mag_reading p))).

(** [line] is none of the lines of text of [setup]. *)
Definition no_text (line : string) : Prop :=
  line <> "Starting..." /\
  line <> "IMU.begin() succeeded" /\
  line <> "IMU.begin() failed".

End Events.

(** ** A fixed-point platform

    An instance of [Platform] in which every number is a decimal fixed-point
    value: a [double] counts millionths and a [float] ten-thousandths, the
    division by 1e6 is exact, and [String(x, n)] writes [x] rounded to [n]
    decimal places (a half away from zero), in the layout of [printf]'s
    [%.nf]. *)

Module FixedPoint.
Import Firmware.

Definition digit_char (d : Z) : ascii := ascii_of_N (48 + Z.to_N d).

(** The decimal digits of [n > 0] before [acc], most significant first. *)
Fixpoint int_digits (fuel : nat) (n : Z) (acc : string) : string :=
  match fuel with
  | O => acc
  | S fuel' =>
      let acc' := String (digit_char (n mod 10)) acc in
      if n / 10 =? 0 then acc' else int_digits fuel' (n / 10) acc'
  end.

(** The last [places] decimal digits of [m] before [acc]. *)
Fixpoint frac_digits (places : nat) (m : Z) (acc : string) : string :=
  match places with
  | O => acc
  | S k => frac_digits k (m / 10) (String (digit_char (m mod 10)) acc)
  end.

(** [z / 10^scale] written with [n] decimal places. *)
Definition String_fixed (scale : nat) (z : Z) (n : nat) : string :=
  let unit := 10 ^ Z.of_nat scale in
  let m := (Z.abs z * 10 ^ Z.of_nat n + unit / 2) / unit in
  let int := m / 10 ^ Z.of_nat n in
  let frac := m mod 10 ^ Z.of_nat n in
  let tail :=
    match n with
    | O => EmptyString
    | S _ => String "." (frac_digits n frac EmptyString)
    end in
  (if z <? 0 then "-" else "") +:+
  int_digits (S (Z.to_nat (Z.log2 int))) int tail.

Definition fixed_platform : Platform :=
  {| double := Z;
     float := Z;
     double_le := Z.le;
     u64_div_1e6 := fun micros => micros;
     String_double := String_fixed 6;
     String_float := String_fixed 4 |}.

(** A pass whose reads give the second example line of the repository's
    system description. *)
Definition example_pass : @pass fixed_platform :=
  @Build_pass fixed_platform
    28392819                               (* now_us *)
    true true true                         (* the three ...Available() *)
    (Some (20, -9750, 1590))               (* readAcceleration *)
    (Some (2500, 625, -2500))              (* readGyroscope *)
    (Some (-34000, 144000, 168000)).       (* readMagneticField *)

(** A pass in which the gyroscope read fails. *)
Definition failed_pass : @pass fixed_platform :=
  @Build_pass fixed_platform
    28403747 true true false (Some (20, -9750, 1590)) None None.

(** A pass made after the 32-bit counter has wrapped. *)
Definition late_pass : @pass fixed_platform :=
  @Build_pass fixed_platform
    4295067296 true true false
    (Some (20, -9740, 1580)) (Some (3750, 625, -3125)) None.

End FixedPoint.

(** ** The host's typed record *)

Module Host.
Import Json FixedPoint.

(** Modelled from the spec: the numbers of the typed record into which the
    IngestionWorker, for which the repository has no code, parses an IMU
    event.  A number is kept exactly, as the decimal
    [mantissa / 10 ^ places]. *)
Record decimal := {
  mantissa : Z;
  places : nat;
}.

(** Modelled from the spec: the typed record of the missing parser of the
    IngestionWorker, with the fields of an IMU event: [t], the seconds of the
    device, [acc], [gyro] and the optional [mag]. *)
Record ImuSample := {
  device_seconds : decimal;
  acceleration : decimal * decimal * decimal;
  gyroscope : decimal * decimal * decimal;
  magnetometer : option (decimal * decimal * decimal);
}.

(** Modelled from the spec: the value of a digit, for the missing parser of
    the IngestionWorker. *)
Definition digit_val (c : ascii) : Z := Z.of_N (code c) - 48.

(** Modelled from the spec: the value of a run of digits after the value
    [acc] of the digits before it, for the missing parser of the
    IngestionWorker. *)
Fixpoint digits_val (acc : Z) (s : string) : Z :=
  match s with
  | EmptyString => acc
  | String c s' => digits_val (10 * acc + digit_val c) s'
  end.

(** Modelled from the spec: the exponent of a JSON number, [s] being what
    follows its digits, for the missing parser of the IngestionWorker. *)
Definition exponent (s : string) : Z :=
  match s with
  | String c r =>
      if is_char c 101 || is_char c 69 then
        match r with
        | String sign d =>
            if is_char sign 45 then - digits_val 0 d
            else if is_char sign 43 then digits_val 0 d
            else digits_val 0 r
        | EmptyString => 0
        end
      else 0
  | EmptyString => 0
  end.

(** Modelled from the spec: [m * 10 ^ (e - p)] as a decimal, for the missing
    parser of the IngestionWorker. *)
Definition scaled (m : Z) (p : nat) (e : Z) : decimal :=
  if e <=? Z.of_nat p
  then {| mantissa := m; places := Z.to_nat (Z.of_nat p - e) |}
  else {| mantissa := m * 10 ^ (e - Z.of_nat p); places := 0 |}.

(** Modelled from the spec: the sign of a JSON number and the text after
    it, for the missing parser of the IngestionWorker. *)
Definition strip_sign (s : string) : bool * string :=
  match s with
  | String c r => if is_char c 45 then (true, r) else (false, s)
  | EmptyString => (false, s)
  end.

(** Modelled from the spec: the digits of the integer part of a JSON number
    without sign, the digits after its dot, and what follows them, for the
    missing parser of the IngestionWorker. *)
Definition unsigned_parts (s : string) : string * string * string :=
  let '(int, s) := span is_digit s in
  match s with
  | String c r =>
      if is_char c 46
      then let '(frac, s) := span is_digit r in (int, frac, s)
      else (int, EmptyString, s)
  | EmptyString => (int, EmptyString, s)
  end.

(** Modelled from the spec: the value of a JSON number, as the missing
    parser of the IngestionWorker reads it: none for a text that is no JSON
    number. *)
Definition number_value (s : string) : option decimal :=
  if json_number s then
    let '(negative, s) := strip_sign s in
    let '(int, frac, s) := unsigned_parts s in
    let m := digits_val 0 (int +:+ frac) in
    Some (scaled (if negative then - m else m) (String.length frac) (exponent s))
  else None.

(** Modelled from the spec: the values of the three numbers of an array,
    for the missing parser of the IngestionWorker. *)
Definition values3 (v : string * string * string)
    : option (decimal * decimal * decimal) :=
  let '(x, y, z) := v in
  x ← number_value x;
  y ← number_value y;
  z ← number_value z;
  Some (x, y, z).

(** Modelled from the spec: the parser of the IngestionWorker, missing from
    the repository: it parses the line of an IMU event into the typed record,
    and fails (ParseError) on malformed input. *)
Definition parse_sample (line : string) : option ImuSample :=
  ev ← parse_imu_line line;
  t ← number_value (ev_t ev);
  acc ← values3 (ev_acc ev);
  gyro ← values3 (ev_gyro ev);
  mag ← match ev_mag ev with
        | Some m => Some <$> values3 m
        | None => Some None
        end;
  Some {| device_seconds := t; acceleration := acc; gyroscope := gyro;
          magnetometer := mag |}.

(** Modelled from the spec: a decimal written out for the re-serialisation
    of the typed record, which the repository has no code for: the sign, the
    integer part, and every decimal place. *)
Definition print_decimal (d : decimal) : string :=
  let a := Z.abs (mantissa d) in
  let unit := 10 ^ Z.of_nat (places d) in
  let tail :=
    match places d with
    | O => EmptyString
    | S _ => String "." (frac_digits (places d) (a mod unit) EmptyString)
    end in
  (if mantissa d <? 0 then "-" else "") +:+
  int_digits (S (Z.to_nat (Z.log2 (a / unit)))) (a / unit) tail.

(** Modelled from the spec: the numbers of a triple of the typed record, as
    the re-serialisation, which the repository has no code for, writes
    them. *)
Definition printed3 (v : decimal * decimal * decimal)
    : string * string * string :=
  let '(x, y, z) := v in (print_decimal x, print_decimal y, print_decimal z).

(** Modelled from the spec: the event that the re-serialisation, which the
    repository has no code for, writes for a typed record: [t], [acc],
    [gyro], and [mag] when present, every number written out. *)
Definition printed (s : ImuSample) : imu_event :=
  {| ev_t := print_decimal (device_seconds s);
     ev_acc := printed3 (acceleration s);
     ev_gyro := printed3 (gyroscope s);
     ev_mag := printed3 <$> magnetometer s |}.

(** Modelled from the spec: the re-serialisation of the typed record, which
    the repository has no code for, as the line of an IMU event. *)
Definition serialize_sample (s : ImuSample) : string := event_text (printed s).

(** The second example line of the repository's system description, as
    the sketch writes it for [example_pass]. *)
Definition example_line : string :=
  @Firmware.record_line fixed_platform 28392819
    (20, -9750, 1590) (2500, 625, -2500) (Some (-34000, 144000, 168000)).

End Host.

(** ** The storage schema

    The [CREATE TABLE] statements of the schema document, one record each,
    in the document's order, and the notes that follow them. *)

Module Storage.

Inductive sqltype := INTEGER | TEXT | BIGINT | REAL.

Record column := {
  col_name : string;
  col_type : sqltype;
  col_primary_key : bool;                 (* PRIMARY KEY AUTOINCREMENT *)
  col_not_null : bool;                    (* NOT NULL *)
  col_check_in : option (list string);    (* CHECK(col IN (...)) *)
}.

(** [FOREIGN KEY(fk_column) REFERENCES fk_table(fk_key)] *)
Record foreign_key := {
  fk_column : string;
  fk_table : string;
  fk_key : string;
}.

Record table := {
  tbl_name : string;
  tbl_columns : list column;
  tbl_foreign_keys : list foreign_key;
}.

#[global] Instance sqltype_eq_dec : EqDecision sqltype.
Proof. solve_decision. Defined.

#[global] Instance column_eq_dec : EqDecision column.
Proof. solve_decision. Defined.

#[global] Instance foreign_key_eq_dec : EqDecision foreign_key.
Proof. solve_decision. Defined.

#[global] Instance table_eq_dec : EqDecision table.
Proof. solve_decision. Defined.

Definition plain (name : string) (ty : sqltype) : column :=
  {| col_name := name; col_type := ty; col_primary_key := false;
     col_not_null := false; col_check_in := None |}.

Definition primary_key (name : string) (ty : sqltype) : column :=
  {| col_name := name; col_type := ty; col_primary_key := true;
     col_not_null := false; col_check_in := None |}.

Definition not_null (name : string) (ty : sqltype) : column :=
  {| col_name := name; col_type := ty; col_primary_key := false;
     col_not_null := true; col_check_in := None |}.

Definition check_in (name : string) (ty : sqltype) (allowed : list string) : column :=
  {| col_name := name; col_type := ty; col_primary_key := false;
     col_not_null := false; col_check_in := Some allowed |}.

Definition references (column table key : string) : foreign_key :=
  {| fk_column := column; fk_table := table; fk_key := key |}.

Definition run_metadata : table :=
  {| tbl_name := "run_metadata";
     tbl_columns :=
       [ primary_key "id" INTEGER;
         plain "name" TEXT;
         plain "description" TEXT;
         check_in "type" TEXT ["calibration"; "scan"];
         plain "start_time_ns" BIGINT;
         plain "end_time_ns" BIGINT ];
     tbl_foreign_keys := [] |}.

Definition calibration_steps : table :=
  {| tbl_name := "calibration_steps";
     tbl_columns :=
       [ primary_key "id" INTEGER;
         plain "run_id" INTEGER;
         plain "step_name" TEXT;
         plain "instruction" TEXT;
         plain "start_time_ns" BIGINT;
         plain "end_time_ns" BIGINT ];
     tbl_foreign_keys := [ references "run_id" "run_metadata" "id" ] |}.

Definition calibration_imu_data : table :=
  {| tbl_name := "calibration_imu_data";
     tbl_columns :=
       [ primary_key "id" INTEGER;
         plain "step_id" INTEGER;
         not_null "pi_timestamp_ns" BIGINT;
         not_null "arduino_timestamp_s" REAL;
         plain "acc_x" REAL; plain "acc_y" REAL; plain "acc_z" REAL;
         plain "gyro_x" REAL; plain "gyro_y" REAL; plain "gyro_z" REAL;
         plain "mag_x" REAL; plain "mag_y" REAL; plain "mag_z" REAL ];
     tbl_foreign_keys := [ references "step_id" "calibration_steps" "id" ] |}.

Definition calibration_lidar_data : table :=
  {| tbl_name := "calibration_lidar_data";
     tbl_columns :=
       [ primary_key "id" INTEGER;
         plain "step_id" INTEGER;
         not_null "pi_timestamp_ns" BIGINT;
         plain "lidar_timestamp_s" REAL;
         plain "speed" REAL;
         plain "start_angle" REAL;
         plain "end_angle" REAL ];
     tbl_foreign_keys := [ references "step_id" "calibration_steps" "id" ] |}.

Definition calibration_lidar_points : table :=
  {| tbl_name := "calibration_lidar_points";
     tbl_columns :=
       [ primary_key "id" INTEGER;
         plain "scan_id" INTEGER;
         plain "angle" REAL;
         plain "distance" REAL;
         plain "intensity" INTEGER ];
     tbl_foreign_keys := [ references "scan_id" "calibration_lidar_data" "id" ] |}.

Definition imu_data : table :=
  {| tbl_name := "imu_data";
     tbl_columns :=
       [ primary_key "id" INTEGER;
         plain "run_id" INTEGER;
         not_null "pi_timestamp_ns" BIGINT;
         not_null "arduino_timestamp_s" REAL;
         plain "acc_x" REAL; plain "acc_y" REAL; plain "acc_z" REAL;
         plain "gyro_x" REAL; plain "gyro_y" REAL; plain "gyro_z" REAL;
         plain "mag_x" REAL; plain "mag_y" REAL; plain "mag_z" REAL ];
     tbl_foreign_keys := [ references "run_id" "run_metadata" "id" ] |}.

Definition lidar_data : table :=
  {| tbl_name := "lidar_data";
     tbl_columns :=
       [ primary_key "id" INTEGER;
         plain "run_id" INTEGER;
         not_null "pi_timestamp_ns" BIGINT;
         plain "lidar_timestamp_s" REAL;
         plain "speed" REAL;
         plain "start_angle" REAL;
         plain "end_angle" REAL ];
     tbl_foreign_keys := [ references "run_id" "run_metadata" "id" ] |}.

Definition lidar_points : table :=
  {| tbl_name := "lidar_points";
     tbl_columns :=
       [ primary_key "id" INTEGER;
         plain "scan_id" INTEGER;
         plain "angle" REAL;
         plain "distance" REAL;
         plain "intensity" INTEGER ];
     tbl_foreign_keys := [ references "scan_id" "lidar_data" "id" ] |}.

Definition stereo_images : table :=
  {| tbl_name := "stereo_images";
     tbl_columns :=
       [ primary_key "id" INTEGER;
         plain "run_id" INTEGER;
         not_null "pi_timestamp_ns" BIGINT;
         plain "left_image_path" TEXT;
         plain "right_image_path" TEXT ];
     tbl_foreign_keys := [ references "run_id" "run_metadata" "id" ] |}.

(** The tables, in the order of the document. *)
Definition schema : list table :=
  [ run_metadata;
    calibration_steps; calibration_imu_data; calibration_lidar_data;
    calibration_lidar_points;
    imu_data; lidar_data; lidar_points; stereo_images ].

(** The [CREATE INDEX] statements of the document, as (table, column): it
    has none. *)
Definition create_index : list (string * string) := [].

(** The note "Index [pi_timestamp_ns] for fast cross-sensor time
    alignment": the columns the notes ask an index for. *)
Definition notes_index : list string := ["pi_timestamp_ns"].

(** *** Rows and the declared constraints *)

Inductive value :=
  | VNull
  | VInt (z : Z)
  | VReal (x : Q)
  | VText (s : string).

#[global] Instance Q_eq_dec : EqDecision Q.
Proof. solve_decision. Defined.

#[global] Instance value_eq_dec : EqDecision value.
Proof. solve_decision. Defined.

(** A row gives a value to some columns; the others are NULL.  A database
    gives each table its rows. *)
Definition field (r : gmap string value) (column : string) : value :=
  default VNull (r !! column).

Definition rows (db : gmap string (list (gmap string value))) (table : string)
    : list (gmap string value) :=
  default [] (db !! table).

Definition is_null (v : value) : bool :=
  match v with VNull => true | _ => false end.

Definition column_names (t : table) : list string := col_name <$> tbl_columns t.

(** The constraints of one column on a row.  A primary key is an integer;
    a [CHECK] passes on NULL, as in SQL. *)
Definition column_ok (c : column) (r : gmap string value) : bool :=
  let v := field r (col_name c) in
  (negb (col_not_null c) || negb (is_null v)) &&
  (negb (col_primary_key c) || match v with VInt _ => true | _ => false end) &&
  match col_check_in c with
  | None => true
  | Some allowed =>
      match v with
      | VNull => true
      | VText s => bool_decide (s ∈ allowed)
      | _ => false
      end
  end.

(** A foreign key on a row: NULL, or the key of a row of the table
    referenced. *)
Definition foreign_key_ok (db : gmap string (list (gmap string value)))
    (fk : foreign_key) (r : gmap string value) : bool :=
  let v := field r (fk_column fk) in
  is_null v ||
  existsb (fun parent => bool_decide (field parent (fk_key fk) = v))
    (rows db (fk_table fk)).

Definition row_ok (db : gmap string (list (gmap string value)))
    (t : table) (r : gmap string value) : bool :=
  forallb (fun column => bool_decide (column ∈ column_names t)) (elements (dom r)) &&
  forallb (fun c => column_ok c r) (tbl_columns t) &&
  forallb (fun fk => foreign_key_ok db fk r) (tbl_foreign_keys t).

(** The primary keys of a table's rows are distinct. *)
Definition keys_ok (db : gmap string (list (gmap string value))) (t : table) : bool :=
  forallb
    (fun c =>
       negb (col_primary_key c) ||
       bool_decide (NoDup ((fun r => field r (col_name c)) <$> rows db (tbl_name t))))
    (tbl_columns t).

(** The database holds rows of the schema's tables only, and every row
    satisfies the constraints its table declares. *)
Definition db_ok (db : gmap string (list (gmap string value))) : bool :=
  forallb (fun name => bool_decide (name ∈ tbl_name <$> schema)) (elements (dom db)) &&
  forallb
    (fun t => forallb (row_ok db t) (rows db (tbl_name t)) && keys_ok db t)
    schema.

(** *** Owners *)

(** The tables of sensor readings. *)
Definition calibration_tables : list table :=
  [calibration_imu_data; calibration_lidar_data].
Definition scan_tables : list table := [imu_data; lidar_data; stereo_images].
Definition sensor_tables : list table := calibration_tables ++ scan_tables.
Definition imu_tables : list table := [calibration_imu_data; imu_data].
Definition point_tables : list table := [calibration_lidar_points; lidar_points].

(** What a row refers to: for each foreign key of its table that is not
    NULL in the row, the table referenced and the key held. *)
Definition owners (t : table) (r : gmap string value) : list (string * value) :=
  omap
    (fun fk =>
       let v := field r (fk_column fk) in
       if is_null v then None else Some (fk_table fk, v))
    (tbl_foreign_keys t).

Definition calibration_owned (t : table) (r : gmap string value) : Prop :=
  exists v, (tbl_name calibration_steps, v) ∈ owners t r.

Definition scan_owned (t : table) (r : gmap string value) : Prop :=
  exists v, (tbl_name run_metadata, v) ∈ owners t r.

(** The table that owns the rows of a sensor table, and the column that
    names the owner. *)
Definition owner_table (t : table) : string :=
  if bool_decide (t ∈ calibration_tables)
  then tbl_name calibration_steps else tbl_name run_metadata.

Definition owner_column (t : table) : string :=
  if bool_decide (t ∈ calibration_tables) then "step_id" else "run_id".

(** The table of the scans that the points of [t] belong to. *)
Definition scan_table (t : table) : string :=
  if bool_decide (t = calibration_lidar_points)
  then tbl_name calibration_lidar_data else tbl_name lidar_data.

Definition declared_not_null (t : table) (column : string) : bool :=
  existsb (fun c => bool_decide (col_name c = column) && col_not_null c)
    (tbl_columns t).

(** *** Time stamps and indexes *)

(** The nanosecond time stamps of a table: its [BIGINT] columns. *)
Definition timestamp_columns (t : table) : list string :=
  col_name <$> filter (fun c => col_type c = BIGINT) (tbl_columns t).

Definition timestamped (t : table) : bool :=
  match timestamp_columns t with [] => false | _ => true end.

(** Column [c] of table [t] has an index: the document has a
    [CREATE INDEX] statement for it. *)
Definition indexed (t : table) (c : string) : bool :=
  bool_decide ((tbl_name t, c) ∈ create_index).

(** *** The schema as the design document lists it *)

(** A table as the design document gives it: its name, its columns, the
    table each owner or scan reference leads to, and the values a column is
    held to. *)
Record listed_table := {
  lt_name : string;
  lt_columns : list string;
  lt_references : list (string * string);
  lt_one_of : list (string * list string);
}.

Definition imu_columns (owner : string) : list string :=
  ["id"; owner; "pi_timestamp_ns"; "arduino_timestamp_s";
   "acc_x"; "acc_y"; "acc_z"; "gyro_x"; "gyro_y"; "gyro_z";
   "mag_x"; "mag_y"; "mag_z"].

Definition lidar_columns (owner : string) : list string :=
  ["id"; owner; "pi_timestamp_ns"; "lidar_timestamp_s"; "speed";
   "start_angle"; "end_angle"].

Definition point_columns : list string :=
  ["id"; "scan_id"; "angle"; "distance"; "intensity"].

(** The list of the design document, in its order. *)
Definition listed_schema : list listed_table :=
  [ {| lt_name := "run_metadata";
       lt_columns :=
         ["id"; "name"; "description"; "type"; "start_time_ns"; "end_time_ns"];
       lt_references := [];
       lt_one_of := [("type", ["calibration"; "scan"])] |};
    {| lt_name := "calibration_steps";
       lt_columns :=
         ["id"; "run_id"; "step_name"; "instruction"; "start_time_ns";
          "end_time_ns"];
       lt_references := [("run_id", "run_metadata")];
       lt_one_of := [] |};
    {| lt_name := "calibration_imu_data";
       lt_columns := imu_columns "step_id";
       lt_references := [("step_id", "calibration_steps")];
       lt_one_of := [] |};
    {| lt_name := "imu_data";
       lt_columns := imu_columns "run_id";
       lt_references := [("run_id", "run_metadata")];
       lt_one_of := [] |};
    {| lt_name := "calibration_lidar_data";
       lt_columns := lidar_columns "step_id";
       lt_references := [("step_id", "calibration_steps")];
       lt_one_of := [] |};
    {| lt_name := "lidar_data";
       lt_columns := lidar_columns "run_id";
       lt_references := [("run_id", "run_metadata")];
       lt_one_of := [] |};
    {| lt_name := "calibration_lidar_points";
       lt_columns := point_columns;
       lt_references := [("scan_id", "calibration_lidar_data")];
       lt_one_of := [] |};
    {| lt_name := "lidar_points";
       lt_columns := point_columns;
       lt_references := [("scan_id", "lidar_data")];
       lt_one_of := [] |};
    {| lt_name := "stereo_images";
       lt_columns :=
         ["id"; "run_id"; "pi_timestamp_ns"; "left_image_path";
          "right_image_path"];
       lt_references := [("run_id", "run_metadata")];
       lt_one_of := [] |} ].

(** What a [CREATE TABLE] statement says of the same. *)
Definition listing (t : table) : listed_table :=
  {| lt_name := tbl_name t;
     lt_columns := column_names t;
     lt_references := (fun fk => (fk_column fk, fk_table fk)) <$> tbl_foreign_keys t;
     lt_one_of :=
       omap (fun c => (fun allowed => (col_name c, allowed)) <$> col_check_in c)
         (tbl_columns t) |}.

#[global] Instance listed_table_eq_dec : EqDecision listed_table.
Proof. solve_decision. Defined.

(** *** References between the tables *)

(** The tables on the side of the calibration, and on the side of the
    scans; [run_metadata] is of both. *)
Definition calibration_side : list table :=
  [calibration_steps; calibration_imu_data; calibration_lidar_data;
   calibration_lidar_points].

Definition scan_side : list table :=
  [imu_data; lidar_data; lidar_points; stereo_images].

(** The table of the schema with the name [name]. *)
Definition table_named (name : string) : option table :=
  List.find (fun t => bool_decide (tbl_name t = name)) schema.

(** The place of a table in the document, from 0. *)
Definition place (t : table) : option nat :=
  fst <$> list_find (fun x => x = t) schema.

(** [a] is declared before [b] in the document. *)
Definition declared_before (a b : table) : Prop :=
  exists i j, place a = Some i /\ place b = Some j /\ (i < j)%nat.

Definition primary_keys (t : table) : list string :=
  col_name <$> List.filter col_primary_key (tbl_columns t).

(** The row [child.2] of the table [child.1] names, by one of the foreign
    keys of its table, the row [parent.2] of the table [parent.1]. *)
Definition refers (db : gmap string (list (gmap string value)))
    (child parent : table * gmap string value) : Prop :=
  parent.1 ∈ schema /\
  exists fk,
    fk ∈ tbl_foreign_keys child.1 /\
    fk_table fk = tbl_name parent.1 /\
    field child.2 (fk_column fk) <> VNull /\
    parent.2 ∈ rows db (tbl_name parent.1) /\
    field parent.2 (fk_key fk) = field child.2 (fk_column fk).

(** The calibration reading, the step and the run of [example_db]. *)
Definition example_calibration_row : gmap string value :=
  list_to_map [("id", VInt 1); ("step_id", VInt 1);
               ("pi_timestamp_ns", VInt 1600);
               ("arduino_timestamp_s", VReal (28381891 # 1000000))].

Definition example_step : gmap string value :=
  list_to_map [("id", VInt 1); ("run_id", VInt 1);
               ("step_name", VText "still_IMU"); ("start_time_ns", VInt 1500)].

Definition example_run : gmap string value :=
  list_to_map [("id", VInt 1); ("name", VText "bench1");
               ("type", VText "calibration"); ("start_time_ns", VInt 1000)].

(** *** Two databases *)

(** One calibration run with a step and one scan run, with a reading of
    each kind. *)
Definition example_db : gmap string (list (gmap string value)) :=
  list_to_map
    [ ("run_metadata",
        [ list_to_map [("id", VInt 1); ("name", VText "bench1");
                       ("type", VText "calibration"); ("start_time_ns", VInt 1000)];
          list_to_map [("id", VInt 2); ("name", VText "cave");
                       ("type", VText "scan"); ("start_time_ns", VInt 9000)] ]);
      ("calibration_steps",
        [ list_to_map [("id", VInt 1); ("run_id", VInt 1);
                       ("step_name", VText "still_IMU"); ("start_time_ns", VInt 1500)] ]);
      ("calibration_imu_data",
        [ list_to_map [("id", VInt 1); ("step_id", VInt 1);
                       ("pi_timestamp_ns", VInt 1600);
                       ("arduino_timestamp_s", VReal (28381891 # 1000000))] ]);
      ("imu_data",
        [ list_to_map [("id", VInt 1); ("run_id", VInt 2);
                       ("pi_timestamp_ns", VInt 9100);
                       ("arduino_timestamp_s", VReal (28392819 # 1000000));
                       ("mag_x", VReal (-34 # 10))] ]);
      ("lidar_data",
        [ list_to_map [("id", VInt 7); ("run_id", VInt 2);
                       ("pi_timestamp_ns", VInt 9200)] ]);
      ("lidar_points",
        [ list_to_map [("id", VInt 1); ("scan_id", VInt 7); ("angle", VReal (1 # 2))] ]);
      ("stereo_images",
        [ list_to_map [("id", VInt 1); ("run_id", VInt 2);
                       ("pi_timestamp_ns", VInt 9300)] ]) ].

(** The reading of [example_db]'s scan run, and its point. *)
Definition example_imu_row : gmap string value :=
  list_to_map [("id", VInt 1); ("run_id", VInt 2);
               ("pi_timestamp_ns", VInt 9100);
               ("arduino_timestamp_s", VReal (28392819 # 1000000));
               ("mag_x", VReal (-34 # 10))].

Definition example_point : gmap string value :=
  list_to_map [("id", VInt 1); ("scan_id", VInt 7); ("angle", VReal (1 # 2))].

(** A reading and a point inserted without an owner: [run_id] and
    [scan_id] are left NULL, and there is no run and no scan at all. *)
Definition ownerless_imu_row : gmap string value :=
  list_to_map [("id", VInt 1); ("pi_timestamp_ns", VInt 9100);
               ("arduino_timestamp_s", VReal (28392819 # 1000000))].

Definition ownerless_point : gmap string value :=
  list_to_map [("id", VInt 1); ("angle", VReal (1 # 2)); ("distance", VReal 3);
               ("intensity", VInt 200)].

Definition ownerless_db : gmap string (list (gmap string value)) :=
  list_to_map
    [ ("imu_data", [ownerless_imu_row]); ("lidar_points", [ownerless_point]) ].

End Storage.

(** ** The session state machine *)

Module Session.

(** Modelled from the spec: the SessionManager of the design document
    (its section 4.4), for which the repository has no code.  A run is of
    one of two kinds. *)
Inductive kind := calibration | scan.

(** Modelled from the spec: a Run row, the SessionManager missing from the
    repository being what creates it (name, kind, start_ns, and end_ns, which
    is null until the run is closed). *)
Record Run := {
  run_name : string;
  run_kind : kind;
  run_start_ns : Z;
  run_end_ns : option Z;
}.

(** Modelled from the spec: a CalibrationStep row, created by the missing
    SessionManager under a calibration Run. *)
Record CalibrationStep := {
  step_run_id : nat;
  step_name : string;
  step_instruction : string;
  step_start_ns : Z;
  step_end_ns : option Z;
}.

(** Modelled from the spec: the states of the missing SessionManager,
    Idle, RunActive(kind), StepActive and RunClosed, with the ids of the run
    and of the step that are open. *)
Inductive state :=
  | Idle
  | RunActive (k : kind) (run : nat)
  | StepActive (run step : nat)
  | RunClosed.

(** Modelled from the spec: what the missing SessionManager holds, its state
    and the rows it has created, by id. *)
Record session := {
  current : state;
  runs : gmap nat Run;
  steps : gmap nat CalibrationStep;
}.

(** Modelled from the spec: the error of the missing SessionManager. *)
Inductive error := ScopeError.

(** Modelled from the spec: what a transition of the missing SessionManager
    answers. *)
Inductive outcome := Done | Failed (e : error).

(** Modelled from the spec: the missing SessionManager at start, Idle and
    without rows. *)
Definition empty_session : session :=
  {| current := Idle; runs := ∅; steps := ∅ |}.

(** Modelled from the spec: the missing [end_run] sets Run.end_ns. *)
Definition close_run_row (now : Z) (r : Run) : Run :=
  {| run_name := run_name r; run_kind := run_kind r;
     run_start_ns := run_start_ns r; run_end_ns := Some now |}.

(** Modelled from the spec: the missing [end_step] sets the step's end_ns. *)
Definition close_step_row (now : Z) (c : CalibrationStep) : CalibrationStep :=
  {| step_run_id := step_run_id c; step_name := step_name c;
     step_instruction := step_instruction c;
     step_start_ns := step_start_ns c; step_end_ns := Some now |}.

(** Modelled from the spec: the missing [start_run(name, kind)], valid only
    from Idle; creates a Run row, sets start_ns, moves to RunActive. *)
Definition start_run (name : string) (k : kind) (now : Z) (s : session)
    : outcome * session :=
  match current s with
  | Idle =>
      let id := S (size (runs s)) in
      (Done,
       {| current := RunActive k id;
          runs :=
            <[id := {| run_name := name; run_kind := k;
                       run_start_ns := now; run_end_ns := None |}]> (runs s);
          steps := steps s |})
  | _ => (Failed ScopeError, s)
  end.

(** Modelled from the spec: the missing [start_step(name, instruction)],
    valid only when RunActive(calibration) and no step is open; creates a
    CalibrationStep row and sets start_ns. *)
Definition start_step (name instruction : string) (now : Z) (s : session)
    : outcome * session :=
  match current s with
  | RunActive calibration run =>
      let id := S (size (steps s)) in
      (Done,
       {| current := StepActive run id;
          runs := runs s;
          steps :=
            <[id := {| step_run_id := run; step_name := name;
                       step_instruction := instruction;
                       step_start_ns := now; step_end_ns := None |}]> (steps s) |})
  | _ => (Failed ScopeError, s)
  end.

(** Modelled from the spec: the missing [end_step()], which requires an open
    step; sets its end_ns and returns to RunActive. *)
Definition end_step (now : Z) (s : session) : outcome * session :=
  match current s with
  | StepActive run step =>
      (Done,
       {| current := RunActive calibration run;
          runs := runs s;
          steps := alter (close_step_row now) step (steps s) |})
  | _ => (Failed ScopeError, s)
  end.

(** Modelled from the spec: the missing [end_run()], which requires no open
    step; sets Run.end_ns, moves to RunClosed, then to Idle. *)
Definition end_run (now : Z) (s : session) : outcome * session :=
  match current s with
  | RunActive _ run =>
      let closed :=
        {| current := RunClosed;
           runs := alter (close_run_row now) run (runs s);
           steps := steps s |} in
      (Done, {| current := Idle; runs := runs closed; steps := steps closed |})
  | _ => (Failed ScopeError, s)
  end.

(** Modelled from the spec: the four transitions of the missing
    SessionManager, as requests. *)
Inductive request :=
  | StartRun (name : string) (k : kind)
  | StartStep (name instruction : string)
  | EndStep
  | EndRun.

(** Modelled from the spec: a request made of the missing SessionManager at
    the host time [now]. *)
Definition transition (q : request) (now : Z) (s : session) : outcome * session :=
  match q with
  | StartRun name k => start_run name k now s
  | StartStep name instruction => start_step name instruction now s
  | EndStep => end_step now s
  | EndRun => end_run now s
  end.

(** Modelled from the spec: the states each transition of the missing
    SessionManager is valid from. *)
Definition valid_from (q : request) (st : state) : bool :=
  match q, st with
  | StartRun _ _, Idle => true
  | StartStep _ _, RunActive calibration _ => true
  | EndStep, StepActive _ _ => true
  | EndRun, RunActive _ _ => true
  | _, _ => false
  end.

(** Modelled from the spec: a step is open in the missing SessionManager. *)
Definition step_open (s : session) : bool :=
  match current s with StepActive _ _ => true | _ => false end.

(** Modelled from the spec: the requests of the scenario of the design
    document made of the missing SessionManager, one after the other, and
    what each answers. *)
Fixpoint requests (qs : list (request * Z)) (s : session)
    : list outcome * session :=
  match qs with
  | [] => ([], s)
  | (q, now) :: qs' =>
      let '(o, s) := transition q now s in
      let '(os, s) := requests qs' s in
      (o :: os, s)
  end.

(** Modelled from the spec: the session of the scenario of the design
    document, the SessionManager missing from the repository, after
    [start_run("bench1", "calibration")] and
    [start_step("still_IMU", "keep device still")]. *)
Definition bench1_step_open : session :=
  snd (requests
         [ (StartRun "bench1" calibration, 1000);
           (StartStep "still_IMU" "keep device still", 1500) ]
         empty_session).

End Session.

(** * Properties *)

Import Firmware Json Events FixedPoint Host Storage Session.

#[local] Arguments String.append !_ _ : simpl nomatch.

(** ** Proof tools *)

(** Unfold the tests on a character into comparisons of its code. *)
Ltac char_tests :=
  unfold is_num_char, is_digit, is_digit19, is_char in *;
  repeat match goal with
    | |- context [N.eqb ?a ?b] => destruct (N.eqb_spec a b)
    | |- context [N.leb ?a ?b] => destruct (N.leb_spec a b)
    | H : context [N.eqb ?a ?b] |- _ => destruct (N.eqb_spec a b)
    | H : context [N.leb ?a ?b] |- _ => destruct (N.leb_spec a b)
    end;
  simpl in *; try congruence; try lia.

(** Take the members of a list of the model one at a time. *)
Ltac each_table H :=
  repeat (apply elem_of_cons in H as [-> | H]); [.. | now apply elem_of_nil in H].

(** Decide a closed statement about the schema by computing. *)
Ltac by_computing := apply (bool_decide_unpack _); vm_compute; exact I.

(** ** The clock's invariant *)

Lemma tracks_boot : tracks boot 0.
Proof. repeat split; try reflexivity; lia. Qed.

Lemma tracks_fullMicros s T : tracks s T -> fullMicros s = T.
Proof.
  intros (HT & Hl & He). unfold fullMicros, wrap64. rewrite Hl, He.
  rewrite <- Z.div_mod by lia. apply Z.mod_small. lia.
Qed.

Lemma tracks_updateMicros s T0 T :
  tracks s T0 -> T0 <= T < T0 + 2 ^ 32 -> T < 2 ^ 64 ->
  tracks (updateMicros T s) T.
Proof.
  intros (HT0 & Hl & He) HT Hlt.
  unfold tracks, updateMicros, micros, wrap32, wrap64; simpl.
  split; [lia|]. split; [reflexivity|].
  rewrite Hl, He. change (Z.shiftl 1 32) with (2 ^ 32).
  pose proof (Z.div_mod T0 (2 ^ 32) ltac:(lia)) as E0.
  pose proof (Z.div_mod T (2 ^ 32) ltac:(lia)) as E1.
  pose proof (Z.mod_pos_bound T0 (2 ^ 32) ltac:(lia)) as B0.
  pose proof (Z.mod_pos_bound T (2 ^ 32) ltac:(lia)) as B1.
  assert (Hq : T / 2 ^ 32 = T0 / 2 ^ 32 \/ T / 2 ^ 32 = T0 / 2 ^ 32 + 1) by nia.
  destruct (Z.ltb_spec (T mod 2 ^ 32) (T0 mod 2 ^ 32)) as [Hw | Hw].
  - assert (Hq' : T / 2 ^ 32 = T0 / 2 ^ 32 + 1) by nia.
    rewrite Hq'. rewrite Z.mod_small; [lia|].
    split; [nia|]. nia.
  - assert (Hq' : T / 2 ^ 32 = T0 / 2 ^ 32) by nia.
    now rewrite Hq'.
Qed.


(** ** Strings and the recogniser *)

Lemma append_assoc (a b c : string) : (a +:+ b) +:+ c = a +:+ (b +:+ c).
Proof. induction a as [|x a IH]; simpl; [reflexivity | now rewrite IH]. Qed.

Lemma all_chars_app p (a b : string) :
  all_chars p (a +:+ b) = all_chars p a && all_chars p b.
Proof.
  induction a as [|x a IH]; simpl; [reflexivity|].
  rewrite IH. now rewrite andb_assoc.
Qed.

Lemma expect_app (lit rest : string) : expect lit (lit +:+ rest) = Some rest.
Proof.
  induction lit as [|c lit IH]; simpl; [reflexivity|].
  now rewrite Ascii.eqb_refl.
Qed.

Lemma span_app p (tok rest : string) :
  all_chars p tok = true ->
  match rest with EmptyString => True | String c _ => p c = false end ->
  span p (tok +:+ rest) = (tok, rest).
Proof.
  intros Htok Hrest. induction tok as [|c tok IH]; simpl in *.
  - destruct rest as [|c r]; simpl; [reflexivity | now rewrite Hrest].
  - apply andb_true_iff in Htok as [Hc Htok]. rewrite Hc, (IH Htok). reflexivity.
Qed.

Lemma num_step_char st c st' : num_step st c = Some st' -> is_num_char c = true.
Proof. destruct st; unfold num_step; char_tests. Qed.

Lemma num_run_chars s : forall st st',
  num_run st s = Some st' -> all_chars is_num_char s = true.
Proof.
  induction s as [|c s IH]; simpl; intros st st' Hrun; [reflexivity|].
  destruct (num_step st c) as [st1|] eqn:Hstep; [|discriminate].
  rewrite (num_step_char _ _ _ Hstep). simpl. eauto.
Qed.

Lemma json_number_chars s : json_number s = true -> all_chars is_num_char s = true.
Proof.
  unfold json_number. destruct (num_run NStart s) eqn:Hrun; [|discriminate].
  intros _. eauto using num_run_chars.
Qed.

Lemma number_app (tok rest : string) :
  json_number tok = true -> stops rest ->
  number (tok +:+ rest) = Some (tok, rest).
Proof.
  intros Htok Hrest. unfold number.
  rewrite span_app; [now rewrite Htok | now apply json_number_chars | exact Hrest].
Qed.

Section Lines.
Context `{Platform}.

Lemma numbers3_triple n v rest :
  printable3 n (Some v) ->
  numbers3 (triple v n +:+ rest) = Some (strings3 n v, rest).
Proof.
  destruct v as [[x y] z]. intros (Hx & Hy & Hz).
  unfold triple, numbers3, strings3. rewrite !append_assoc.
  rewrite (number_app _ _ Hx) by reflexivity. simpl.
  rewrite (number_app _ _ Hy) by reflexivity. simpl.
  rewrite (number_app _ _ Hz) by reflexivity. reflexivity.
Qed.

(** A line built by [loop] is read back as the event it was built from. *)
Lemma parse_record_line t acc gyro mag :
  json_number (String_double t 6) = true ->
  printable3 4 (Some acc) -> printable3 4 (Some gyro) -> printable3 1 mag ->
  parse_imu_line (record_line t acc gyro mag) = Some (event_of t acc gyro mag).
Proof.
  intros Ht Ha Hg Hm.
  unfold record_line, record_head, parse_imu_line, event_of.
  destruct mag as [m|]; rewrite !append_assoc; simpl;
    rewrite (number_app _ _ Ht) by reflexivity; simpl;
    rewrite (numbers3_triple _ _ _ Ha); simpl;
    rewrite (numbers3_triple _ _ _ Hg); simpl.
  - now rewrite (numbers3_triple _ _ _ Hm).
  - reflexivity.
Qed.

Lemma loop_reads_ok p s acc gyro :
  accelerationAvailable p && gyroscopeAvailable p = true ->
  readAcceleration p = Some acc -> readGyroscope p = Some gyro ->
  loop p s =
    println
      (record_line (u64_div_1e6 (fullMicros (updateMicros (now_us p) s)))
         acc gyro (mag_reading p))
      (updateMicros (now_us p) s).
Proof. intros Hav Ha Hg. unfold loop. now rewrite Hav, Ha, Hg. Qed.

Lemma loop_read_fails p s : read_fails p -> loop p s = println lit_error s.
Proof.
  intros (Hav & Hfail). unfold loop. rewrite Hav.
  destruct Hfail as [-> | ->]; [reflexivity|].
  now destruct (readAcceleration p).
Qed.

Lemma loop_no_data p s :
  accelerationAvailable p && gyroscopeAvailable p = false -> loop p s = s.
Proof. intros Hav. unfold loop. now rewrite Hav. Qed.

(** What a pass does, by cases. *)
Lemma loop_cases p s :
  (accelerationAvailable p && gyroscopeAvailable p = false /\ loop p s = s) \/
  (read_fails p /\ loop p s = println lit_error s) \/
  (exists acc gyro,
     accelerationAvailable p && gyroscopeAvailable p = true /\
     readAcceleration p = Some acc /\ readGyroscope p = Some gyro).
Proof.
  destruct (accelerationAvailable p && gyroscopeAvailable p) eqn:Hav.
  - destruct (readAcceleration p) as [acc|] eqn:Ha;
      [destruct (readGyroscope p) as [gyro|] eqn:Hg|].
    + right; right. now exists acc, gyro.
    + right; left. assert (read_fails p) by (split; [assumption | now right]).
      split; [assumption | now apply loop_read_fails].
    + right; left. assert (read_fails p) by (split; [assumption | now left]).
      split; [assumption | now apply loop_read_fails].
  - left. split; [reflexivity | now apply loop_no_data].
Qed.

Lemma fullMicros_range s : 0 <= fullMicros s < 2 ^ 64.
Proof. unfold fullMicros, wrap64. apply Z.mod_pos_bound. lia. Qed.

End Lines.

(** ** The fixed-point platform writes JSON numbers *)


Lemma digit_char_cases d :
  0 <= d <= 9 ->
  is_digit (digit_char d) = true /\
  (1 <= d -> is_digit19 (digit_char d) = true) /\
  (d = 0 -> digit_char d = "0"%char).
Proof.
  intros Hd.
  assert (Hc : d = 0 \/ d = 1 \/ d = 2 \/ d = 3 \/ d = 4 \/
               d = 5 \/ d = 6 \/ d = 7 \/ d = 8 \/ d = 9) by lia.
  repeat destruct Hc as [-> | Hc]; try subst d;
    repeat split; intros; try reflexivity; lia.
Qed.

Lemma digit_mod10 n : is_digit (digit_char (n mod 10)) = true.
Proof.
  apply digit_char_cases. pose proof (Z.mod_pos_bound n 10 ltac:(lia)). lia.
Qed.

Lemma frac_digits_all k : forall m acc,
  all_chars is_digit acc = true -> all_chars is_digit (frac_digits k m acc) = true.
Proof.
  induction k as [|k IH]; simpl; intros m acc Hacc; [assumption|].
  apply IH. simpl. now rewrite digit_mod10.
Qed.

Lemma frac_digits_nonempty k : forall m acc,
  acc <> EmptyString -> frac_digits k m acc <> EmptyString.
Proof.
  induction k as [|k IH]; simpl; intros m acc Hacc; [assumption|].
  now apply IH.
Qed.

Lemma int_digits_shape fuel : forall n acc,
  0 < n < 2 ^ Z.of_nat fuel ->
  exists c ds,
    int_digits fuel n acc = String c (ds +:+ acc) /\
    is_digit19 c = true /\ all_chars is_digit ds = true.
Proof.
  induction fuel as [|fuel IH]; intros n acc Hn; [simpl in Hn; lia|].
  cbn [int_digits].
  destruct (Z.eqb_spec (n / 10) 0) as [Hq | Hq].
  - exists (digit_char (n mod 10)), EmptyString. split; [reflexivity|]. split; [|reflexivity].
    pose proof (Z.mod_pos_bound n 10 ltac:(lia)).
    apply digit_char_cases; [lia|].
    pose proof (Z.div_mod n 10 ltac:(lia)). lia.
  - destruct (IH (n / 10) (String (digit_char (n mod 10)) acc)) as (c & ds & E & Hc & Hds).
    { rewrite Nat2Z.inj_succ, Z.pow_succ_r in Hn by lia.
      pose proof (Z.div_mod n 10 ltac:(lia)).
      pose proof (Z.mod_pos_bound n 10 ltac:(lia)).
      assert (0 <= n / 10) by (apply Z.div_pos; lia).
      lia. }
    exists c, (ds +:+ String (digit_char (n mod 10)) EmptyString).
    rewrite E, append_assoc. split; [reflexivity|]. split; [assumption|].
    rewrite all_chars_app, Hds. simpl. now rewrite digit_mod10.
Qed.

Lemma num_run_int ds rest :
  all_chars is_digit ds = true -> num_run NInt (ds +:+ rest) = num_run NInt rest.
Proof.
  induction ds as [|c ds IH]; simpl; intros Hds; [reflexivity|].
  apply andb_true_iff in Hds as [Hc Hds]. rewrite Hc. now apply IH.
Qed.

Lemma num_run_frac ds :
  all_chars is_digit ds = true -> num_run NFrac ds = Some NFrac.
Proof.
  induction ds as [|c ds IH]; simpl; intros Hds; [reflexivity|].
  apply andb_true_iff in Hds as [Hc Hds]. rewrite Hc. now apply IH.
Qed.

Lemma num_run_dot ds :
  ds <> EmptyString -> all_chars is_digit ds = true -> num_run NDot ds = Some NFrac.
Proof.
  destruct ds as [|c ds]; simpl; intros Hne Hds; [congruence|].
  apply andb_true_iff in Hds as [Hc Hds]. rewrite Hc. now apply num_run_frac.
Qed.

(** The decimal places, after the digits of the integer part. *)
Lemma num_run_places st n frac :
  st = NZero \/ st = NInt ->
  exists st',
    num_run st
      match n with
      | O => EmptyString
      | S _ => String "." (frac_digits n frac EmptyString)
      end = Some st' /\ num_final st' = true.
Proof.
  intros Hst. destruct n as [|k].
  - exists st. split; [reflexivity|]. now destruct Hst as [-> | ->].
  - exists NFrac. split; [|reflexivity].
    assert (Hdot : num_step st "." = Some NDot) by now destruct Hst as [-> | ->].
    cbn [num_run]. rewrite Hdot. apply num_run_dot.
    + cbn [frac_digits]. now apply frac_digits_nonempty.
    + now apply frac_digits_all.
Qed.

Lemma num_step_first st c :
  st = NStart \/ st = NMinus -> is_digit19 c = true -> num_step st c = Some NInt.
Proof. intros [-> | ->] Hc; unfold num_step; char_tests. Qed.

Lemma String_fixed_number scale z n : json_number (String_fixed scale z n) = true.
Proof.
  unfold String_fixed, json_number.
  set (unit := 10 ^ Z.of_nat scale).
  set (m := (Z.abs z * 10 ^ Z.of_nat n + unit / 2) / unit).
  set (int := m / 10 ^ Z.of_nat n).
  set (frac := m mod 10 ^ Z.of_nat n).
  set (tail := match n with O => EmptyString | S _ => _ end).
  assert (Hunit : 0 < unit) by (apply Z.pow_pos_nonneg; lia).
  assert (Hpow : 0 < 10 ^ Z.of_nat n) by (apply Z.pow_pos_nonneg; lia).
  assert (Hm : 0 <= m).
  { apply Z.div_pos; [|assumption].
    assert (0 <= unit / 2) by (apply Z.div_pos; lia). nia. }
  assert (Hint : 0 <= int) by (apply Z.div_pos; assumption).
  assert (Hrun : forall st, st = NStart \/ st = NMinus ->
            exists st', num_run st
              (int_digits (S (Z.to_nat (Z.log2 int))) int tail) = Some st' /\
              num_final st' = true).
  { intros st Hst.
    destruct (Z.eq_dec int 0) as [E0 | Hpos].
    - rewrite E0. cbn [int_digits Z.log2 Z.to_nat].
      change (0 / 10 =? 0) with true. cbn iota.
      change (digit_char (0 mod 10)) with "0"%char.
      assert (Hz : num_step st "0" = Some NZero) by now destruct Hst as [-> | ->].
      cbn [num_run]. rewrite Hz. apply num_run_places. now left.
    - destruct (int_digits_shape (S (Z.to_nat (Z.log2 int))) int tail)
        as (c & ds & E & Hc & Hds).
      { pose proof (Z.log2_nonneg int).
        rewrite Nat2Z.inj_succ, Z2Nat.id by assumption.
        pose proof (Z.log2_spec int ltac:(lia)). lia. }
      rewrite E. cbn [num_run]. rewrite (num_step_first _ _ Hst Hc).
      rewrite (num_run_int _ _ Hds). apply num_run_places. now right. }
  destruct (z <? 0).
  - destruct (Hrun NMinus ltac:(now right)) as (st' & E & Hfin).
    change ("-" +:+ ?x) with (String "-" x). cbn [num_run].
    change (num_step NStart "-") with (Some NMinus). cbn iota.
    now rewrite E.
  - destruct (Hrun NStart ltac:(now left)) as (st' & E & Hfin).
    change ("" +:+ ?x) with x. now rewrite E.
Qed.

(** The three passes of [FixedPoint], as the host reads them: the two lines
    of [setup] and the error object are no events, and the two records are
    read back with the numbers as [loop] wrote them. *)
Example example_run_events :
  parse_imu_line <$>
    Serial (@run fixed_platform true [example_pass; failed_pass; late_pass]) =
  [ None; None;
    Some {| ev_t := "28.392819";
            ev_acc := ("0.0020", "-0.9750", "0.1590");
            ev_gyro := ("0.2500", "0.0625", "-0.2500");
            ev_mag := Some ("-3.4", "14.4", "16.8") |};
    None;
    Some {| ev_t := "4295.067296";
            ev_acc := ("0.0020", "-0.9740", "0.1580");
            ev_gyro := ("0.3750", "0.0625", "-0.3125");
            ev_mag := None |} ].
Proof. reflexivity. Qed.

(** ** The clock *)

Section Clock.
Context `{Platform}.

Lemma last_cons_default (l : list Z) : forall a d d',
  List.last (a :: l) d = List.last (a :: l) d'.
Proof.
  induction l as [|b l IH]; intros a d d'; [reflexivity|].
  change (List.last (b :: l) d = List.last (b :: l) d'). apply IH.
Qed.

Lemma calls_track Ts : forall s T0,
  tracks s T0 -> spaced_from T0 Ts -> Forall (fun T => T < 2 ^ 64) Ts ->
  fst (calls Ts s) = map u64_div_1e6 Ts /\
  tracks (snd (calls Ts s)) (List.last Ts T0).
Proof.
  induction Ts as [|T Ts IH]; intros s T0 Hs Hsp Hlt; [now split|].
  destruct Hsp as [HT Hsp]. apply List.Forall_cons_iff in Hlt as [HT64 Hlt].
  pose proof (tracks_updateMicros s T0 T Hs HT HT64) as Hs'.
  destruct (IH _ _ Hs' Hsp Hlt) as [Hvals Hend].
  cbn [calls getSecondsSinceBoot].
  destruct (calls Ts (updateMicros T s)) as [ts s'] eqn:E.
  simpl in *. split.
  - now rewrite (tracks_fullMicros _ _ Hs'), Hvals.
  - destruct Ts as [|T1 Ts]; [exact Hend|].
    now rewrite (last_cons_default Ts T1 T0 T).
Qed.

Lemma calls_sorted Ts : forall T0,
  (forall a b, 0 <= a -> a <= b -> b < 2 ^ 64 ->
     double_le (u64_div_1e6 a) (u64_div_1e6 b)) ->
  0 <= T0 -> spaced_from T0 Ts -> Forall (fun T => T < 2 ^ 64) Ts ->
  Sorted double_le (map u64_div_1e6 (T0 :: Ts)).
Proof.
  intros T0 Hmono. revert T0.
  induction Ts as [|T Ts IH]; intros T0 H0 Hsp Hlt.
  - repeat constructor.
  - destruct Hsp as [HT Hsp]. apply List.Forall_cons_iff in Hlt as [HT64 Hlt].
    simpl. constructor; [apply IH; [lia | assumption | assumption]|].
    constructor. apply Hmono; lia.
Qed.

(** The counter shows the time up to a multiple of 2^32, and so do the
    calls. *)
Lemma updateMicros_shift k T s :
  updateMicros (T + 2 ^ 32 * k) s = updateMicros T s.
Proof.
  unfold updateMicros, micros, wrap32.
  now rewrite Z.mul_comm, Z_mod_plus_full.
Qed.

Lemma calls_shift k Ts : forall s,
  calls ((fun T => T + 2 ^ 32 * k) <$> Ts) s = calls Ts s.
Proof.
  induction Ts as [|T Ts IH]; intros s; [reflexivity|].
  cbn [fmap list_fmap calls getSecondsSinceBoot].
  rewrite updateMicros_shift.
  fold (list_fmap Z Z (fun T => T + 2 ^ 32 * k) Ts).
  change (list_fmap Z Z (fun T => T + 2 ^ 32 * k) Ts)
    with ((fun T => T + 2 ^ 32 * k) <$> Ts).
  now rewrite IH.
Qed.

Lemma spaced_from_shift d Ts : forall T0,
  spaced_from T0 Ts -> spaced_from (T0 - d) ((fun T => T - d) <$> Ts).
Proof.
  induction Ts as [|T Ts IH]; intros T0 Hsp; [exact I|].
  destruct Hsp as [HT Hsp]. split; [lia | now apply IH].
Qed.

(** Whenever the first call comes, the calls return the time since the last
    wrap of the counter before it. *)
Lemma calls_since_wrap T1 Ts :
  spaced (T1 :: Ts) -> Forall (fun T => T < 2 ^ 64) (T1 :: Ts) ->
  fst (calls (T1 :: Ts) boot) =
    map (fun T => u64_div_1e6 (T - 2 ^ 32 * (T1 / 2 ^ 32))) (T1 :: Ts).
Proof.
  intros [H1 Hsp] Hlt.
  set (k := T1 / 2 ^ 32). set (d := 2 ^ 32 * k).
  assert (Hk : 0 <= k) by (apply Z.div_pos; lia).
  pose proof (Z.div_mod T1 (2 ^ 32) ltac:(lia)) as E1.
  pose proof (Z.mod_pos_bound T1 (2 ^ 32) ltac:(lia)) as B1.
  assert (Hback : (fun T => T + 2 ^ 32 * k) <$> ((fun T => T - d) <$> (T1 :: Ts))
                  = T1 :: Ts).
  { rewrite <- list_fmap_compose. rewrite <- (list_fmap_id (T1 :: Ts)) at 2.
    apply list_fmap_ext. intros _ T _. unfold d. simpl. lia. }
  rewrite <- Hback at 1. rewrite calls_shift.
  destruct (calls_track ((fun T => T - d) <$> (T1 :: Ts)) boot 0 tracks_boot)
    as [Hvals _].
  - split; [fold k; fold d; lia|].
    apply (spaced_from_shift d Ts T1 Hsp).
  - apply List.Forall_forall. intros T HT.
    apply list_elem_of_In, list_elem_of_fmap in HT as (T' & -> & HT').
    apply list_elem_of_In in HT'.
    rewrite List.Forall_forall in Hlt. specialize (Hlt T' HT'). unfold d. lia.
  - rewrite Hvals. rewrite <- list_fmap_compose. reflexivity.
Qed.

End Clock.

(** C7, as the sketch has it: when the first call of [getSecondsSinceBoot]
    comes less than 2^32 microseconds after boot, and each further call less
    than 2^32 microseconds after the one before (the time staying below 2^64
    microseconds), every call returns the microseconds since boot divided by
    1e6, the returned values never decrease, and [extendedMicros] holds 2^32
    for each wrap of the 32-bit counter so far. *)
Theorem seconds_since_boot_tracks_time `{Platform} (Ts : list Z) :
  (forall a b, 0 <= a -> a <= b -> b < 2 ^ 64 ->
     double_le (u64_div_1e6 a) (u64_div_1e6 b)) ->
  spaced_from 0 Ts -> Forall (fun T => T < 2 ^ 64) Ts ->
  fst (calls Ts boot) = map u64_div_1e6 Ts /\
  Sorted double_le (fst (calls Ts boot)) /\
  extendedMicros (snd (calls Ts boot)) = 2 ^ 32 * (List.last Ts 0 / 2 ^ 32).
Proof.
  intros Hmono Hsp Hlt.
  destruct (calls_track Ts boot 0 tracks_boot Hsp Hlt) as [Hvals Hend].
  split; [assumption|]. split.
  - rewrite Hvals.
    pose proof (calls_sorted Ts 0 Hmono ltac:(lia) Hsp Hlt) as Hs.
    now inversion Hs.
  - apply Hend.
Qed.

Lemma seconds_since_boot_tracks_time_witness :
  fst (@calls fixed_platform [28392819; 4294967000; 4295067296; 8589934600] boot)
    = [28392819; 4294967000; 4295067296; 8589934600] /\
  Sorted Z.le
    (fst (@calls fixed_platform [28392819; 4294967000; 4295067296; 8589934600] boot)) /\
  extendedMicros
    (snd (@calls fixed_platform [28392819; 4294967000; 4295067296; 8589934600] boot))
    = 2 ^ 32 * 2.
Proof.
  apply (@seconds_since_boot_tracks_time fixed_platform
           [28392819; 4294967000; 4295067296; 8589934600]).
  - intros a b _ Hab _. exact Hab.
  - simpl. lia.
  - repeat constructor.
Defined.

(** C7, as stated, fails: nothing is asked of the time between boot and the
    first call, and a first call made after the 32-bit counter has wrapped
    returns the time since the wrap. *)
Lemma first_call_after_a_wrap_returns_time_since_wrap :
  spaced [2 ^ 32 + 5] /\
  Forall (fun T => T < 2 ^ 64) [2 ^ 32 + 5] /\
  fst (@calls fixed_platform [2 ^ 32 + 5] boot) = [5] /\
  map (@u64_div_1e6 fixed_platform) [2 ^ 32 + 5] = [4294967301].
Proof.
  split; [simpl; lia|]. split; [repeat constructor|]. split; reflexivity.
Qed.

(** ** The schema *)


(** C3, as the document has it: the schema defines exactly nine tables,
    [run_metadata], [calibration_steps], [calibration_imu_data], [imu_data],
    [calibration_lidar_data], [lidar_data], [calibration_lidar_points],
    [lidar_points] and [stereo_images], each with the columns the design
    document lists for it (in the order it lists them), the check on [type],
    and the references it lists. *)
Theorem schema_as_listed :
  length schema = 9%nat /\
  NoDup (tbl_name <$> schema) /\
  listing <$> schema ≡ₚ listed_schema.
Proof.
  split; [reflexivity|].
  split; by_computing.
Qed.

(** C3, as stated, fails on the number of the tables: they are nine, as
    are the names the claim lists. *)
Lemma schema_has_nine_tables :
  length schema = 9%nat /\ length listed_schema = 9%nat /\
  Nat.eqb (length schema) 8 = false.
Proof. repeat split. Qed.

(** *** Rows that satisfy the declared constraints *)

Lemma forallb_elem_of {A} (f : A -> bool) (l : list A) (x : A) :
  forallb f l = true -> x ∈ l -> f x = true.
Proof.
  intros Hall Hx. rewrite forallb_forall in Hall.
  apply Hall. now apply list_elem_of_In.
Qed.

Lemma db_ok_row db t r :
  db_ok db = true -> t ∈ schema -> r ∈ rows db (tbl_name t) ->
  row_ok db t r = true.
Proof.
  unfold db_ok. intros Hdb Ht Hr.
  apply andb_true_iff in Hdb as [_ Hdb].
  pose proof (forallb_elem_of _ _ _ Hdb Ht) as Htab. simpl in Htab.
  apply andb_true_iff in Htab as [Hrows _].
  exact (forallb_elem_of _ _ _ Hrows Hr).
Qed.

Lemma row_ok_column db t r c :
  row_ok db t r = true -> c ∈ tbl_columns t -> column_ok c r = true.
Proof.
  unfold row_ok. intros Hrow Hc.
  apply andb_true_iff in Hrow as [Hrow _].
  apply andb_true_iff in Hrow as [_ Hcols].
  exact (forallb_elem_of _ _ _ Hcols Hc).
Qed.

Lemma row_ok_foreign_key db t r fk :
  row_ok db t r = true -> fk ∈ tbl_foreign_keys t ->
  field r (fk_column fk) <> VNull ->
  exists parent,
    parent ∈ rows db (fk_table fk) /\
    field parent (fk_key fk) = field r (fk_column fk).
Proof.
  unfold row_ok. intros Hrow Hfk Hv.
  apply andb_true_iff in Hrow as [_ Hfks].
  pose proof (forallb_elem_of _ _ _ Hfks Hfk) as Hok.
  unfold foreign_key_ok in Hok. simpl in Hok.
  apply orb_true_iff in Hok as [Hnull | Hex].
  - now destruct (field r (fk_column fk)).
  - apply existsb_exists in Hex as (parent & Hin & Heq).
    exists parent. split; [now apply list_elem_of_In|].
    now apply bool_decide_eq_true in Heq.
Qed.

Lemma row_ok_columns db t r c :
  row_ok db t r = true -> c ∉ column_names t -> r !! c = None.
Proof.
  unfold row_ok. intros Hrow Hc.
  apply andb_true_iff in Hrow as [Hrow _].
  apply andb_true_iff in Hrow as [Hdom _].
  destruct (r !! c) as [v|] eqn:E; [|reflexivity].
  exfalso. apply Hc.
  assert (Hin : c ∈ elements (dom r)).
  { apply elem_of_elements, elem_of_dom. now exists v. }
  pose proof (forallb_elem_of _ _ _ Hdom Hin) as Hb.
  now apply bool_decide_eq_true in Hb.
Qed.

Lemma column_ok_not_null c r :
  column_ok c r = true -> col_not_null c = true -> field r (col_name c) <> VNull.
Proof.
  unfold column_ok. intros Hok Hnn Hv. rewrite Hnn, Hv in Hok. discriminate.
Qed.

Lemma sensor_tables_in_schema t : t ∈ sensor_tables -> t ∈ schema.
Proof. intros Ht. each_table Ht; by_computing. Qed.

Lemma point_tables_in_schema t : t ∈ point_tables -> t ∈ schema.
Proof. intros Ht. each_table Ht; by_computing. Qed.

Lemma sensor_table_foreign_keys t :
  t ∈ sensor_tables ->
  tbl_foreign_keys t = [references (owner_column t) (owner_table t) "id"].
Proof. intros Ht. each_table Ht; reflexivity. Qed.

Lemma owners_one fk t r :
  tbl_foreign_keys t = [fk] ->
  owners t r =
    if is_null (field r (fk_column fk)) then []
    else [(fk_table fk, field r (fk_column fk))].
Proof.
  intros E. unfold owners. rewrite E. simpl.
  now destruct (is_null (field r (fk_column fk))).
Qed.

Lemma declared_not_null_field db t r c :
  db_ok db = true -> t ∈ schema -> r ∈ rows db (tbl_name t) ->
  declared_not_null t c = true -> field r c <> VNull.
Proof.
  intros Hdb Ht Hr Hnn. unfold declared_not_null in Hnn.
  apply existsb_exists in Hnn as (col & Hin & Hcol).
  apply andb_true_iff in Hcol as [Hname Hcol].
  apply bool_decide_eq_true in Hname as <-.
  apply column_ok_not_null; [|assumption].
  apply (row_ok_column db t); [now apply db_ok_row|now apply list_elem_of_In].
Qed.

(** C4, as the schema has it: a table of sensor readings has one
    reference, its owner: [step_id] into [calibration_steps] for the
    calibration tables, [run_id] into [run_metadata] for the scan tables, and
    no column for the other.  So no reading is owned both by a step and by a
    run, and the owner a reading names exists.  The owner may be NULL: a
    reading has at most one owner. *)
Theorem sensor_row_owner db t r :
  db_ok db = true -> t ∈ sensor_tables -> r ∈ rows db (tbl_name t) ->
  tbl_foreign_keys t = [references (owner_column t) (owner_table t) "id"] /\
  (t ∈ calibration_tables ->
   owner_table t = "calibration_steps" /\ r !! "run_id" = None) /\
  (t ∈ scan_tables ->
   owner_table t = "run_metadata" /\ r !! "step_id" = None) /\
  ~ (calibration_owned t r /\ scan_owned t r) /\
  (forall o v, (o, v) ∈ owners t r ->
     o = owner_table t /\ v = field r (owner_column t) /\
     exists parent, parent ∈ rows db o /\ field parent "id" = v).
Proof.
  intros Hdb Ht Hr.
  pose proof (db_ok_row db t r Hdb (sensor_tables_in_schema t Ht) Hr) as Hrow.
  pose proof (sensor_table_foreign_keys t Ht) as Hfk.
  assert (Hown : forall o v, (o, v) ∈ owners t r ->
            o = owner_table t /\ v = field r (owner_column t) /\ v <> VNull).
  { intros o v Hin. rewrite (owners_one _ _ _ Hfk) in Hin. simpl in Hin.
    destruct (field r (owner_column t)) eqn:E; simpl in Hin;
      try (apply list_elem_of_singleton in Hin; injection Hin as -> ->;
           repeat split; congruence).
    now apply elem_of_nil in Hin. }
  split; [assumption|]. split; [|split; [|split]].
  - intros Hc. split.
    + each_table Hc; reflexivity.
    + apply (row_ok_columns db t r _ Hrow). each_table Hc; by_computing.
  - intros Hs. split.
    + each_table Hs; reflexivity.
    + apply (row_ok_columns db t r _ Hrow). each_table Hs; by_computing.
  - intros [[v Hc] [w Hs]].
    destruct (Hown _ _ Hc) as (Ec & _). destruct (Hown _ _ Hs) as (Es & _).
    rewrite <- Ec in Es. discriminate.
  - intros o v Hin. destruct (Hown _ _ Hin) as (-> & -> & Hv).
    repeat split.
    apply (row_ok_foreign_key db t r
             (references (owner_column t) (owner_table t) "id") Hrow);
      [rewrite Hfk; apply list_elem_of_singleton; reflexivity | exact Hv].
Qed.

Lemma sensor_row_owner_witness :
  ~ (calibration_owned imu_data example_imu_row /\
     scan_owned imu_data example_imu_row) /\
  (forall o v, (o, v) ∈ owners imu_data example_imu_row ->
     o = "run_metadata" /\ v = VInt 2 /\
     exists parent, parent ∈ rows example_db o /\ field parent "id" = v).
Proof.
  apply (sensor_row_owner example_db imu_data example_imu_row);
    [vm_compute; reflexivity | by_computing | by_computing].
Defined.

(** C4, as stated, fails: [run_id] may be left NULL, and the reading then
    has no owner at all. *)
Lemma reading_without_owner :
  db_ok ownerless_db = true /\
  imu_data ∈ sensor_tables /\
  ownerless_imu_row ∈ rows ownerless_db (tbl_name imu_data) /\
  owners imu_data ownerless_imu_row = [].
Proof. repeat split; try reflexivity; by_computing. Qed.

(** C5, as the schema has it: a point row whose [scan_id] is not NULL
    names a row of the table of its scans, [lidar_data] for [lidar_points]
    and [calibration_lidar_data] for [calibration_lidar_points], the declared
    references being enforced. *)
Theorem point_scan_exists db t r :
  db_ok db = true -> t ∈ point_tables -> r ∈ rows db (tbl_name t) ->
  tbl_foreign_keys t = [references "scan_id" (scan_table t) "id"] /\
  (field r "scan_id" <> VNull ->
   exists scan,
     scan ∈ rows db (scan_table t) /\ field scan "id" = field r "scan_id").
Proof.
  intros Hdb Ht Hr.
  pose proof (db_ok_row db t r Hdb (point_tables_in_schema t Ht) Hr) as Hrow.
  assert (Hfk : tbl_foreign_keys t = [references "scan_id" (scan_table t) "id"])
    by (each_table Ht; reflexivity).
  split; [assumption|]. intros Hv.
  apply (row_ok_foreign_key db t r (references "scan_id" (scan_table t) "id") Hrow);
    [rewrite Hfk; apply list_elem_of_singleton; reflexivity | exact Hv].
Qed.

Lemma point_scan_exists_witness :
  tbl_foreign_keys lidar_points = [references "scan_id" "lidar_data" "id"] /\
  (field example_point "scan_id" <> VNull ->
   exists scan,
     scan ∈ rows example_db "lidar_data" /\
     field scan "id" = field example_point "scan_id").
Proof.
  apply (point_scan_exists example_db lidar_points example_point);
    [vm_compute; reflexivity | by_computing | by_computing].
Defined.

(** C5, as stated, fails: [scan_id] may be left NULL, and the point then
    names no scan; here there is no scan at all. *)
Lemma point_without_scan :
  db_ok ownerless_db = true /\
  ownerless_point ∈ rows ownerless_db (tbl_name lidar_points) /\
  field ownerless_point "scan_id" = VNull /\
  rows ownerless_db (scan_table lidar_points) = [].
Proof. repeat split; try reflexivity; by_computing. Qed.

(** C10: each of [calibration_imu_data], [imu_data],
    [calibration_lidar_data], [lidar_data] and [stereo_images] declares
    [pi_timestamp_ns] NOT NULL, and the two IMU tables declare
    [arduino_timestamp_s] NOT NULL as well; so every row of them holds a host
    time, and every IMU row the time of the Arduino. *)
Theorem sensor_rows_carry_host_time db t r :
  db_ok db = true -> t ∈ sensor_tables -> r ∈ rows db (tbl_name t) ->
  declared_not_null t "pi_timestamp_ns" = true /\
  field r "pi_timestamp_ns" <> VNull /\
  (t ∈ imu_tables ->
   declared_not_null t "arduino_timestamp_s" = true /\
   field r "arduino_timestamp_s" <> VNull).
Proof.
  intros Hdb Ht Hr.
  pose proof (sensor_tables_in_schema t Ht) as Hs.
  assert (Hpi : declared_not_null t "pi_timestamp_ns" = true)
    by (each_table Ht; reflexivity).
  split; [assumption|]. split.
  - now apply (declared_not_null_field db t r).
  - intros Hi.
    assert (Har : declared_not_null t "arduino_timestamp_s" = true)
      by (each_table Hi; reflexivity).
    split; [assumption|]. now apply (declared_not_null_field db t r).
Qed.

Lemma sensor_rows_carry_host_time_witness :
  declared_not_null imu_data "pi_timestamp_ns" = true /\
  field example_imu_row "pi_timestamp_ns" <> VNull /\
  (imu_data ∈ imu_tables ->
   declared_not_null imu_data "arduino_timestamp_s" = true /\
   field example_imu_row "arduino_timestamp_s" <> VNull).
Proof.
  apply (sensor_rows_carry_host_time example_db imu_data example_imu_row);
    [vm_compute; reflexivity | by_computing | by_computing].
Defined.

(** ** The session *)


(** C8: [end_run()] called while a step is open fails with ScopeError, and
    the session it returns is the one it was given: the state, the Run rows
    and the step rows are unchanged.  The same holds of every transition
    asked for in a state it is not valid from. *)
Theorem end_run_in_open_step_fails (now : Z) (s : session) :
  step_open s = true ->
  end_run now s = (Failed ScopeError, s) /\
  runs (snd (end_run now s)) = runs s /\
  current (snd (end_run now s)) = current s /\
  (forall q s', valid_from q (current s') = false ->
     transition q now s' = (Failed ScopeError, s')).
Proof.
  intros Hopen.
  assert (E : end_run now s = (Failed ScopeError, s)).
  { unfold end_run, step_open in *. now destruct (current s). }
  rewrite E. repeat split.
  intros q s' Hq.
  destruct q as [name k | name instruction | |]; simpl in *;
    unfold start_run, start_step, end_step, end_run;
    destruct (current s') as [|[] run|run step|]; simpl in Hq;
    try discriminate; reflexivity.
Qed.

Lemma end_run_in_open_step_fails_witness :
  step_open bench1_step_open = true /\
  end_run 2000 bench1_step_open = (Failed ScopeError, bench1_step_open) /\
  runs (snd (end_run 2000 bench1_step_open)) = runs bench1_step_open /\
  current (snd (end_run 2000 bench1_step_open)) = current bench1_step_open /\
  (forall q s', valid_from q (current s') = false ->
     transition q 2000 s' = (Failed ScopeError, s')).
Proof.
  split; [reflexivity|].
  apply (end_run_in_open_step_fails 2000 bench1_step_open). reflexivity.
Defined.

(** A transition asked for in a state it is valid from is made. *)
Lemma valid_transition_done q now s :
  valid_from q (current s) = true -> fst (transition q now s) = Done.
Proof.
  destruct q as [name k | name instruction | |]; simpl;
    unfold start_run, start_step, end_step, end_run;
    destruct (current s) as [|[] run|run step|]; simpl;
    intros Hq; try discriminate; reflexivity.
Qed.

(** The scenario of the design document: a calibration run with one step.
    Every request is answered, the session is Idle again, and the run and the
    step are closed at the times of [end_run] and [end_step]. *)
Example bench1_scenario :
  let '(answers, s) :=
    requests
      [ (StartRun "bench1" calibration, 1000);
        (StartStep "still_IMU" "keep device still", 1500);
        (EndStep, 2500);
        (EndRun, 3000) ]
      empty_session in
  answers = [Done; Done; Done; Done] /\
  current s = Idle /\
  (run_end_ns <$> runs s !! 1%nat) = Some (Some 3000) /\
  (step_end_ns <$> steps s !! 1%nat) = Some (Some 2500) /\
  (step_run_id <$> steps s !! 1%nat) = Some 1%nat.
Proof. vm_compute. repeat split. Qed.

(** * More of the sketch *)

(** ** The clock, whatever the times of the calls *)

Lemma updateMicros_congr T T' s :
  T mod 2 ^ 32 = T' mod 2 ^ 32 -> updateMicros T s = updateMicros T' s.
Proof. intros E. unfold updateMicros, micros, wrap32. now rewrite E. Qed.

(** One call: the microseconds advance by the time passed modulo 2^32. *)
Lemma tracks_call s T0 R0 T :
  tracks s R0 -> R0 <= T0 -> (T0 - R0) mod 2 ^ 32 = 0 ->
  T0 <= T -> T < 2 ^ 64 ->
  let R := R0 + (T - T0) mod 2 ^ 32 in
  tracks (updateMicros T s) R /\ R0 <= R <= T /\ (T - R) mod 2 ^ 32 = 0.
Proof.
  intros Hs HR0 Hm HT HT64 R.
  pose proof (Z.mod_pos_bound (T - T0) (2 ^ 32) ltac:(lia)) as Hg.
  pose proof (Z.mod_le (T - T0) (2 ^ 32) ltac:(lia) ltac:(lia)) as Hle.
  assert (HTR : (T - R) mod 2 ^ 32 = 0).
  { apply Z.mod_divide in Hm as [a Ha]; [|lia].
    pose proof (Z.div_mod (T - T0) (2 ^ 32) ltac:(lia)) as Hq.
    replace (T - R) with ((a + (T - T0) / 2 ^ 32) * 2 ^ 32) by (unfold R; lia).
    apply Z_mod_mult. }
  assert (Hsame : T mod 2 ^ 32 = R mod 2 ^ 32).
  { apply Z.mod_divide in HTR as [b Hb]; [|lia].
    replace T with (R + b * 2 ^ 32) by lia. apply Z_mod_plus_full. }
  split; [|split; [unfold R; lia | assumption]].
  rewrite (updateMicros_congr T R s Hsame).
  apply (tracks_updateMicros s R0 R Hs); unfold R; lia.
Qed.

Section AnyTimes.
Context `{Platform}.

Lemma calls_reported Ts : forall s T0 R0,
  tracks s R0 -> R0 <= T0 -> (T0 - R0) mod 2 ^ 32 = 0 ->
  ascending_from T0 Ts -> Forall (fun T => T < 2 ^ 64) Ts ->
  fst (calls Ts s) = map u64_div_1e6 (reported T0 R0 Ts) /\
  Forall2 (fun R T => 0 <= R <= T /\ (T - R) mod 2 ^ 32 = 0)
    (reported T0 R0 Ts) Ts /\
  Sorted Z.le (R0 :: reported T0 R0 Ts).
Proof.
  induction Ts as [|T Ts IH]; intros s T0 R0 Hs HR0 Hm Hasc Hlt.
  - repeat split; repeat constructor.
  - destruct Hasc as [HT Hasc]. apply List.Forall_cons_iff in Hlt as [HT64 Hlt].
    destruct (tracks_call s T0 R0 T Hs HR0 Hm HT HT64) as (Hs' & HR & HTR).
    set (R := R0 + (T - T0) mod 2 ^ 32) in *.
    destruct (IH (updateMicros T s) T R Hs' ltac:(lia) HTR Hasc Hlt)
      as (Hvals & Hrel & Hsorted).
    cbn [calls getSecondsSinceBoot reported]. fold R.
    destruct (calls Ts (updateMicros T s)) as [ts s'] eqn:E.
    simpl in *. split; [|split].
    + now rewrite (tracks_fullMicros _ _ Hs'), Hvals.
    + constructor; [|assumption]. destruct Hs as ((? & ?) & _). split; [lia|assumption].
    + constructor; [assumption|]. constructor. lia.
Qed.

Lemma map_sorted_in_range (l : list Z) :
  (forall a b, 0 <= a -> a <= b -> b < 2 ^ 64 ->
     double_le (u64_div_1e6 a) (u64_div_1e6 b)) ->
  Sorted Z.le l -> Forall (fun R => 0 <= R < 2 ^ 64) l ->
  Sorted double_le (map u64_div_1e6 l).
Proof.
  intros Hmono Hs. induction Hs as [|a l Hl IH Hhd]; intros Hr; simpl;
    constructor.
  - apply IH. now inversion Hr.
  - apply List.Forall_cons_iff in Hr as [Ha Hr].
    destruct Hhd as [|b l' Hab]; simpl; constructor.
    apply List.Forall_cons_iff in Hr as [Hb _]. apply Hmono; lia.
Qed.

End AnyTimes.

(** X1: whatever the times of the calls of [getSecondsSinceBoot], as long
    as they do not go back and stay below 2^64 microseconds, each call
    advances the microseconds it reports by the time since the call before (or
    since boot) taken modulo 2^32.  The microseconds reported never run ahead
    of the time since boot, and lag behind it by a multiple of 2^32. *)
Theorem calls_advance_modulo_wrap `{Platform} (Ts : list Z) :
  ascending_from 0 Ts -> Forall (fun T => T < 2 ^ 64) Ts ->
  fst (calls Ts boot) = map u64_div_1e6 (reported 0 0 Ts) /\
  Forall2 (fun R T => 0 <= R <= T /\ (T - R) mod 2 ^ 32 = 0)
    (reported 0 0 Ts) Ts.
Proof.
  intros Hasc Hlt.
  destruct (calls_reported Ts boot 0 0 tracks_boot ltac:(lia) eq_refl Hasc Hlt)
    as (Hvals & Hrel & _).
  now split.
Qed.

Lemma calls_advance_modulo_wrap_witness :
  fst (@calls fixed_platform [28392819; 4294967301; 12884901888 + 7] boot) =
    [28392819; 4294967301; 4294967296 + 7] /\
  Forall2 (fun R T => 0 <= R <= T /\ (T - R) mod 2 ^ 32 = 0)
    (reported 0 0 [28392819; 4294967301; 12884901888 + 7])
    [28392819; 4294967301; 12884901888 + 7].
Proof.
  apply (@calls_advance_modulo_wrap fixed_platform
           [28392819; 4294967301; 12884901888 + 7]).
  - simpl. lia.
  - repeat constructor.
Defined.

(** X2: the values returned by [getSecondsSinceBoot] never decrease,
    however long the time between two calls, a wrap that is missed
    included. *)
Theorem returned_seconds_never_decrease `{Platform} (Ts : list Z) :
  (forall a b, 0 <= a -> a <= b -> b < 2 ^ 64 ->
     double_le (u64_div_1e6 a) (u64_div_1e6 b)) ->
  ascending_from 0 Ts -> Forall (fun T => T < 2 ^ 64) Ts ->
  Sorted double_le (fst (calls Ts boot)).
Proof.
  intros Hmono Hasc Hlt.
  destruct (calls_reported Ts boot 0 0 tracks_boot ltac:(lia) eq_refl Hasc Hlt)
    as (Hvals & Hrel & Hsorted).
  rewrite Hvals. apply map_sorted_in_range; [assumption | now inversion Hsorted |].
  clear Hvals Hsorted Hasc. revert Hlt.
  induction Hrel as [|R T Rs Ts' (HR & _) _ IH]; intros Hlt; constructor.
  - apply List.Forall_cons_iff in Hlt as [HT _]. lia.
  - apply List.Forall_cons_iff in Hlt as [_ Hlt]. exact (IH Hlt).
Qed.

Lemma returned_seconds_never_decrease_witness :
  Sorted Z.le
    (fst (@calls fixed_platform [28392819; 4294967301; 12884901888 + 7] boot)).
Proof.
  apply (@returned_seconds_never_decrease fixed_platform
           [28392819; 4294967301; 12884901888 + 7]).
  - intros a b _ Hab _. exact Hab.
  - simpl. lia.
  - repeat constructor.
Defined.

(** ** The globals during a run *)

Lemma clock_in_range_boot : clock_in_range boot.
Proof. repeat split; try reflexivity; lia. Qed.

Lemma clock_in_range_updateMicros T s :
  clock_in_range s -> clock_in_range (updateMicros T s).
Proof.
  intros (Hl & He & Hm & _).
  assert (Hrange : (0 <= lastMicros (updateMicros T s) < 2 ^ 32) /\
                   (0 <= extendedMicros (updateMicros T s) < 2 ^ 64) /\
                   extendedMicros (updateMicros T s) mod 2 ^ 32 = 0).
  { unfold updateMicros, micros, wrap32, wrap64; cbn [lastMicros extendedMicros].
    split; [apply Z.mod_pos_bound; lia|].
    destruct (T mod 2 ^ 32 <? lastMicros s); [|now split].
    change (Z.shiftl 1 32) with (2 ^ 32).
    apply Z.mod_divide in Hm as [a Ha]; [|lia].
    replace (extendedMicros s + 2 ^ 32) with (2 ^ 32 * (a + 1)) by lia.
    change (2 ^ 64) with (2 ^ 32 * 2 ^ 32).
    rewrite Z.mul_mod_distr_l by lia.
    pose proof (Z.mod_pos_bound (a + 1) (2 ^ 32) ltac:(lia)).
    split; [nia|]. rewrite Z.mul_comm. apply Z_mod_mult. }
  destruct Hrange as (Hl' & He' & Hm'). repeat split; try assumption; try lia.
  unfold fullMicros, wrap64. apply Z.mod_small.
  apply Z.mod_divide in Hm' as [a Ha]; [|lia].
  assert (a < 2 ^ 32) by nia. nia.
Qed.

Lemma clock_in_range_println line s :
  clock_in_range s -> clock_in_range (println line s).
Proof. intros Hs. exact Hs. Qed.

Section Run.
Context `{Platform}.

Lemma stamped_reads p :
  stamped p = true <->
  speaks p = true /\ is_Some (readAcceleration p) /\ is_Some (readGyroscope p).
Proof.
  unfold stamped. rewrite !andb_true_iff, !bool_decide_eq_true. tauto.
Qed.

Lemma loop_stamped p s :
  stamped p = true ->
  exists acc gyro,
    readAcceleration p = Some acc /\ readGyroscope p = Some gyro /\
    loop p s =
      println
        (record_line (u64_div_1e6 (fullMicros (updateMicros (now_us p) s)))
           acc gyro (mag_reading p))
        (updateMicros (now_us p) s).
Proof.
  intros Hst. apply stamped_reads in Hst as (Hav & [acc Ha] & [gyro Hg]).
  exists acc, gyro. repeat split; try assumption.
  now apply loop_reads_ok.
Qed.

Lemma loop_not_stamped p s :
  stamped p = false ->
  loop p s = if speaks p then println lit_error s else s.
Proof.
  intros Hst. destruct (speaks p) eqn:Hav.
  - apply loop_read_fails. split; [exact Hav|].
    destruct (readAcceleration p) as [acc|] eqn:Ha; [|now left].
    destruct (readGyroscope p) as [gyro|] eqn:Hg; [|now right].
    exfalso. unfold stamped in Hst. rewrite Hav, Ha, Hg in Hst.
    rewrite !bool_decide_eq_true_2 in Hst by eauto. discriminate.
  - now apply loop_no_data.
Qed.

Lemma clock_in_range_loop p s : clock_in_range s -> clock_in_range (loop p s).
Proof.
  intros Hs. destruct (stamped p) eqn:Hst.
  - destruct (loop_stamped p s Hst) as (acc & gyro & _ & _ & ->).
    now apply clock_in_range_println, clock_in_range_updateMicros.
  - rewrite (loop_not_stamped p s Hst). now destruct (speaks p).
Qed.

Lemma clock_in_range_passes passes : forall s,
  clock_in_range s -> clock_in_range (fold_left (fun s p => loop p s) passes s).
Proof.
  induction passes as [|p passes IH]; intros s Hs; [exact Hs|].
  simpl. now apply IH, clock_in_range_loop.
Qed.

Lemma clock_updateMicros T s s' :
  clock s = clock s' -> clock (updateMicros T s) = clock (updateMicros T s').
Proof.
  unfold clock, updateMicros. cbn [lastMicros extendedMicros].
  intros [= -> ->]. reflexivity.
Qed.

Lemma fullMicros_clock s s' : clock s = clock s' -> fullMicros s = fullMicros s'.
Proof. unfold clock, fullMicros. intros [= -> ->]. reflexivity. Qed.

Lemma tracks_clock s s' T : clock s = clock s' -> tracks s T -> tracks s' T.
Proof. unfold clock, tracks. intros [= -> ->]. tauto. Qed.

Lemma clock_loop p s :
  clock (loop p s) =
    if stamped p then clock (updateMicros (now_us p) s) else clock s.
Proof.
  destruct (stamped p) eqn:Hst.
  - now destruct (loop_stamped p s Hst) as (acc & gyro & _ & _ & ->).
  - rewrite (loop_not_stamped p s Hst). now destruct (speaks p).
Qed.

Lemma clock_calls Ts : forall s s',
  clock s = clock s' -> clock (snd (calls Ts s)) = clock (snd (calls Ts s')).
Proof.
  induction Ts as [|T Ts IH]; intros s s' Hc; [exact Hc|].
  cbn [calls getSecondsSinceBoot].
  pose proof (IH _ _ (clock_updateMicros T s s' Hc)) as Hc'.
  destruct (calls Ts (updateMicros T s)), (calls Ts (updateMicros T s')).
  exact Hc'.
Qed.

Lemma clock_passes passes : forall s s',
  clock s = clock s' ->
  clock (fold_left (fun s p => loop p s) passes s) =
  clock (snd (calls (stamp_times passes) s')).
Proof.
  induction passes as [|p passes IH]; intros s s' Hc; [exact Hc|].
  cbn [fold_left]. unfold stamp_times. cbn [List.filter].
  pose proof (clock_loop p s) as Hl.
  destruct (stamped p).
  - cbn [fmap list_fmap calls getSecondsSinceBoot].
    specialize (IH (loop p s) (updateMicros (now_us p) s')).
    unfold stamp_times in IH.
    destruct (calls _ (updateMicros (now_us p) s')) as [ts s''] eqn:E.
    simpl. simpl in IH. apply IH.
    rewrite Hl. now apply clock_updateMicros.
  - apply IH. now rewrite Hl.
Qed.

Lemma passes_append passes : forall s,
  exists k,
    Serial (fold_left (fun s p => loop p s) passes s) = Serial s ++ k /\
    Forall2 line_of_pass (List.filter speaks passes) k.
Proof.
  induction passes as [|p passes IH]; intros s.
  - exists []. split; [now rewrite app_nil_r | constructor].
  - cbn [fold_left List.filter].
    destruct (IH (loop p s)) as (k & Hk & Hlines). rewrite Hk.
    destruct (stamped p) eqn:Hst.
    + destruct (loop_stamped p s Hst) as (acc & gyro & Ha & Hg & ->).
      apply stamped_reads in Hst as Hst'. destruct Hst' as (-> & _).
      eexists (_ :: k). split; [cbn [Serial println updateMicros]; now rewrite <- app_assoc|].
      constructor; [|assumption].
      unfold line_of_pass. rewrite Hst. eauto 6.
    + rewrite (loop_not_stamped p s Hst). destruct (speaks p).
      * exists (lit_error :: k). split; [cbn [Serial println]; now rewrite <- app_assoc|].
        constructor; [|assumption]. unfold line_of_pass. now rewrite Hst.
      * now exists k.
Qed.

Lemma passes_same_lines passes : forall s s',
  clock s = clock s' ->
  exists k,
    Serial (fold_left (fun s p => loop p s) passes s) = Serial s ++ k /\
    Serial (fold_left (fun s p => loop p s) passes s') = Serial s' ++ k.
Proof.
  induction passes as [|p passes IH]; intros s s' Hc.
  - exists []. now rewrite !app_nil_r.
  - cbn [fold_left].
    assert (Hc' : clock (loop p s) = clock (loop p s')).
    { rewrite !clock_loop. destruct (stamped p); [now apply clock_updateMicros | assumption]. }
    destruct (IH _ _ Hc') as (k & Hk & Hk'). rewrite Hk, Hk'.
    destruct (stamped p) eqn:Hst.
    + destruct (loop_stamped p s Hst) as (acc & gyro & Ha & Hg & ->).
      destruct (loop_stamped p s' Hst) as (acc' & gyro' & Ha' & Hg' & ->).
      rewrite Ha in Ha'. rewrite Hg in Hg'. injection Ha' as <-. injection Hg' as <-.
      rewrite (fullMicros_clock _ _ (clock_updateMicros (now_us p) s s' Hc)).
      eexists (_ :: k). cbn [Serial println updateMicros].
      now rewrite <- !app_assoc.
    + rewrite !(loop_not_stamped p _ Hst). destruct (speaks p).
      * exists (lit_error :: k). cbn [Serial println]. now rewrite <- !app_assoc.
      * now exists k.
Qed.

End Run.

Lemma spaced_from_snoc Ts : forall T0 T,
  spaced_from T0 (Ts ++ [T]) ->
  spaced_from T0 Ts /\
  (List.last Ts T0 <= T < List.last Ts T0 + 2 ^ 32).
Proof.
  induction Ts as [|T1 Ts IH]; intros T0 T Hsp.
  - simpl in *. tauto.
  - destruct Hsp as [HT1 Hsp]. destruct (IH T1 T Hsp) as [Hsp' Hlast].
    split; [now split|].
    destruct Ts as [|T2 Ts]; [exact Hlast|].
    rewrite (last_cons_default Ts T2 T1 T0) in Hlast. exact Hlast.
Qed.

(** X3: throughout a run, whatever the times and the readings of the
    passes, [lastMicros] stays below 2^32, [extendedMicros] stays a multiple
    of 2^32 below 2^64, and the sum [extendedMicros + lastMicros] of
    [getSecondsSinceBoot] never overflows its 64 bits. *)
Theorem globals_stay_in_range `{Platform} (begin_ok : bool) (passes : list pass) :
  clock_in_range (run begin_ok passes).
Proof.
  unfold run. apply clock_in_range_passes.
  unfold setup. destruct begin_ok; apply clock_in_range_boot.
Qed.

(** X4: the clock moves only in the passes whose two reads succeed: after
    a run the two globals are what calls of [getSecondsSinceBoot] at the times
    of those passes alone leave, the passes without data and the passes with
    a failed read not counting. *)
Theorem clock_follows_stamped_passes `{Platform}
    (begin_ok : bool) (passes : list pass) :
  clock (run begin_ok passes) = clock (snd (calls (stamp_times passes) boot)).
Proof. unfold run. apply clock_passes. now destruct begin_ok. Qed.

(** X5: when the passes whose reads succeed follow each other, and the
    first of them the boot, by less than 2^32 microseconds, a pass whose reads
    succeed prints one record, whose [t] is the time of the pass since boot
    divided by 1e6, whatever passes without data or with failed reads came
    before it. *)
Theorem record_carries_time_of_pass `{Platform}
    (begin_ok : bool) (before : list pass) (p : pass)
    (acc gyro : float * float * float) :
  spaced_from 0 (stamp_times (before ++ [p])) ->
  Forall (fun T => T < 2 ^ 64) (stamp_times (before ++ [p])) ->
  speaks p = true ->
  readAcceleration p = Some acc -> readGyroscope p = Some gyro ->
  Serial (run begin_ok (before ++ [p])) =
    Serial (run begin_ok before) ++
    [record_line (u64_div_1e6 (now_us p)) acc gyro (mag_reading p)].
Proof.
  intros Hsp Hlt Hav Ha Hg.
  assert (Hst : stamped p = true) by (apply stamped_reads; rewrite Ha, Hg; eauto).
  unfold stamp_times in Hsp, Hlt.
  rewrite List.filter_app in Hsp, Hlt. cbn [List.filter] in Hsp, Hlt.
  rewrite Hst in Hsp, Hlt. rewrite fmap_app in Hsp, Hlt.
  cbn [fmap list_fmap] in Hsp, Hlt.
  fold (stamp_times before) in Hsp, Hlt.
  apply List.Forall_app in Hlt as [Hlt HT64].
  apply List.Forall_cons_iff in HT64 as [HT64 _].
  pose proof (spaced_from_snoc _ _ _ Hsp) as Hpre.
  destruct Hpre as [Hsp' Hlast].
  destruct (calls_track (stamp_times before) boot 0 tracks_boot Hsp' Hlt)
    as [_ Htr].
  assert (Hc : clock (run begin_ok before) =
               clock (snd (calls (stamp_times before) boot)))
    by (unfold run; apply clock_passes; now destruct begin_ok).
  apply (tracks_clock _ (run begin_ok before)) in Htr; [|now symmetry].
  pose proof (tracks_updateMicros _ _ (now_us p) Htr Hlast HT64) as Htr'.
  unfold run. rewrite fold_left_app. cbn [fold_left].
  fold (run begin_ok before).
  rewrite (loop_reads_ok p _ acc gyro Hav Ha Hg).
  now rewrite (tracks_fullMicros _ _ Htr').
Qed.

Lemma record_carries_time_of_pass_witness :
  Serial (@run fixed_platform true ([example_pass; failed_pass] ++ [late_pass])) =
    Serial (@run fixed_platform true [example_pass; failed_pass]) ++
    [@record_line fixed_platform 4295067296
       (20, -9740, 1580) (3750, 625, -3125) None].
Proof.
  apply (@record_carries_time_of_pass fixed_platform true
           [example_pass; failed_pass] late_pass
           (20, -9740, 1580) (3750, 625, -3125)).
  - change (spaced_from 0 [28392819; 4295067296]). simpl. lia.
  - change (Forall (fun T => T < 2 ^ 64) [28392819; 4295067296]).
    repeat constructor.
  - reflexivity.
  - reflexivity.
  - reflexivity.
Defined.

(** X6: the serial output of a run is the two lines of [setup] followed by
    one line for each pass in which data of both sensors was available, in
    the order of the passes: a record of the readings of the pass when both
    reads succeeded, the error object otherwise.  A pass without data prints
    nothing, and no pass changes a line printed before it. *)
Theorem lines_follow_passes `{Platform} (begin_ok : bool) (passes : list pass) :
  (exists lines,
     Serial (run begin_ok passes) =
       [lit_starting;
        if begin_ok then lit_begin_succeeded else lit_begin_failed] ++ lines /\
     Forall2 line_of_pass (List.filter speaks passes) lines) /\
  (forall more,
     exists lines,
       Serial (run begin_ok (passes ++ more)) =
         Serial (run begin_ok passes) ++ lines).
Proof.
  split.
  - unfold run. destruct (passes_append passes (setup begin_ok boot))
      as (k & Hk & Hlines).
    exists k. split; [|assumption]. rewrite Hk. now destruct begin_ok.
  - intros more. unfold run. rewrite fold_left_app.
    destruct (passes_append more
                (fold_left (fun s p => loop p s) passes (setup begin_ok boot)))
      as (k & Hk & _).
    now exists k.
Qed.

(** X7: the sketch goes on whatever [IMU.begin()] returned: but for the
    second line of [setup], a run after a failed [IMU.begin()] prints the
    lines of a run after a successful one, and leaves the same clock. *)
Theorem run_whatever_begin_returned `{Platform} (passes : list pass) :
  (exists lines,
     Serial (run true passes) = [lit_starting; lit_begin_succeeded] ++ lines /\
     Serial (run false passes) = [lit_starting; lit_begin_failed] ++ lines) /\
  clock (run true passes) = clock (run false passes).
Proof.
  split.
  - unfold run.
    destruct (passes_same_lines passes (setup true boot) (setup false boot)
                eq_refl) as (k & Hk & Hk').
    exists k. now rewrite Hk, Hk'.
  - unfold run.
    rewrite (clock_passes passes (setup true boot) boot eq_refl).
    now rewrite (clock_passes passes (setup false boot) boot eq_refl).
Qed.

(** * More of the schema *)

Lemma NoDup_fmap_same {A B} (f : A -> B) (l : list A) (a b : A) :
  NoDup (f <$> l) -> a ∈ l -> b ∈ l -> f a = f b -> a = b.
Proof.
  induction l as [|x l IH]; intros Hnd Ha Hb Hf; [now apply elem_of_nil in Ha|].
  rewrite fmap_cons in Hnd. apply NoDup_cons in Hnd as [Hx Hnd].
  apply elem_of_cons in Ha as [-> | Ha]; apply elem_of_cons in Hb as [-> | Hb].
  - reflexivity.
  - exfalso. apply Hx. rewrite Hf. now apply list_elem_of_fmap_2.
  - exfalso. apply Hx. rewrite <- Hf. now apply list_elem_of_fmap_2.
  - now apply IH.
Qed.

Lemma db_ok_keys db t c :
  db_ok db = true -> t ∈ schema -> c ∈ tbl_columns t ->
  col_primary_key c = true ->
  NoDup ((fun r => field r (col_name c)) <$> rows db (tbl_name t)).
Proof.
  unfold db_ok. intros Hdb Ht Hc Hpk.
  apply andb_true_iff in Hdb as [_ Hdb].
  pose proof (forallb_elem_of _ _ _ Hdb Ht) as Htab. simpl in Htab.
  apply andb_true_iff in Htab as [_ Hkeys]. unfold keys_ok in Hkeys.
  pose proof (forallb_elem_of _ _ _ Hkeys Hc) as Hk. simpl in Hk.
  rewrite Hpk in Hk. simpl in Hk. now apply bool_decide_eq_true in Hk.
Qed.

(** What a foreign key of the schema leads to: a table of the schema, by
    its primary key. *)
Lemma foreign_key_target t fk :
  t ∈ schema -> fk ∈ tbl_foreign_keys t ->
  exists parent,
    parent ∈ schema /\ tbl_name parent = fk_table fk /\
    primary_key (fk_key fk) INTEGER ∈ tbl_columns parent.
Proof.
  intros Ht Hfk. each_table Ht; simpl in Hfk; each_table Hfk;
    first
      [ exists run_metadata; repeat split; by_computing
      | exists calibration_steps; repeat split; by_computing
      | exists calibration_lidar_data; repeat split; by_computing
      | exists lidar_data; repeat split; by_computing ].
Qed.

(** X8: in a database that satisfies the declared constraints, a foreign
    key that is not NULL names one row of the table it references and no
    other: the row exists, and the primary key of that table tells it from
    every other row.  This holds of every foreign key of the schema, the one
    of [calibration_steps] and those of the point tables included. *)
Theorem reference_names_one_row db t fk r :
  db_ok db = true -> t ∈ schema -> fk ∈ tbl_foreign_keys t ->
  r ∈ rows db (tbl_name t) ->
  field r (fk_column fk) <> VNull ->
  exists parent,
    parent ∈ rows db (fk_table fk) /\
    field parent (fk_key fk) = field r (fk_column fk) /\
    (forall other,
       other ∈ rows db (fk_table fk) ->
       field other (fk_key fk) = field r (fk_column fk) ->
       other = parent).
Proof.
  intros Hdb Ht Hfk Hr Hv.
  pose proof (db_ok_row db t r Hdb Ht Hr) as Hrow.
  destruct (row_ok_foreign_key db t r fk Hrow Hfk Hv) as (parent & Hin & Hkey).
  exists parent. repeat split; try assumption.
  intros other Hother Hokey.
  destruct (foreign_key_target t fk Ht Hfk) as (pt & Hpt & Hname & Hpk).
  pose proof (db_ok_keys db pt _ Hdb Hpt Hpk eq_refl) as Hnd.
  rewrite Hname in Hnd. simpl in Hnd.
  apply (NoDup_fmap_same _ _ other parent Hnd Hother Hin). congruence.
Qed.

Lemma reference_names_one_row_witness :
  exists parent,
    parent ∈ rows example_db "calibration_steps" /\
    field parent "id" = field example_calibration_row "step_id" /\
    (forall other,
       other ∈ rows example_db "calibration_steps" ->
       field other "id" = field example_calibration_row "step_id" ->
       other = parent).
Proof.
  apply (reference_names_one_row example_db calibration_imu_data
           (references "step_id" "calibration_steps" "id")
           example_calibration_row);
    [vm_compute; reflexivity | by_computing | by_computing | by_computing |].
  vm_compute. discriminate.
Defined.

(** X9: in a database that satisfies the declared constraints, the [type]
    of a row of [run_metadata] is 'calibration', 'scan' or NULL: the CHECK
    refuses every other value, and lets NULL pass, the column not being
    declared NOT NULL. *)
Theorem run_type_is_checked db r :
  db_ok db = true -> r ∈ rows db (tbl_name run_metadata) ->
  field r "type" = VText "calibration" \/ field r "type" = VText "scan" \/
  field r "type" = VNull.
Proof.
  intros Hdb Hr.
  assert (Hin : run_metadata ∈ schema) by by_computing.
  pose proof (db_ok_row db run_metadata r Hdb Hin Hr) as Hrow.
  assert (Hc : check_in "type" TEXT ["calibration"; "scan"]
                 ∈ tbl_columns run_metadata) by by_computing.
  pose proof (row_ok_column db run_metadata r _ Hrow Hc) as Hok.
  unfold column_ok in Hok. simpl in Hok.
  destruct (field r "type") as [|z|x|s]; simpl in Hok; try discriminate.
  - now right; right.
  - apply bool_decide_eq_true in Hok.
    apply elem_of_cons in Hok as [-> | Hok]; [now left|].
    apply elem_of_cons in Hok as [-> | Hok]; [now right; left|].
    now apply elem_of_nil in Hok.
Qed.

Lemma run_type_is_checked_witness :
  field example_run "type" = VText "calibration" \/
  field example_run "type" = VText "scan" \/
  field example_run "type" = VNull.
Proof.
  apply (run_type_is_checked example_db example_run);
    [vm_compute; reflexivity | by_computing].
Defined.

(** X10: every foreign key of the schema is on an INTEGER column of its
    own table and references the one primary key, [id], of a table of the
    schema that the document declares before the table of the key; so the
    statements can be run in the order of the document, and no chain of
    references comes back to its table. *)
Theorem references_lead_back t fk :
  t ∈ schema -> fk ∈ tbl_foreign_keys t ->
  plain (fk_column fk) INTEGER ∈ tbl_columns t /\
  exists parent,
    table_named (fk_table fk) = Some parent /\
    declared_before parent t /\
    primary_keys parent = [fk_key fk] /\
    fk_key fk = "id".
Proof.
  intros Ht Hfk. each_table Ht; simpl in Hfk; each_table Hfk;
    (split; [by_computing|]);
    eexists; (split; [vm_compute; reflexivity|]);
    (split; [eexists _, _; split; [vm_compute; reflexivity|];
             split; [vm_compute; reflexivity | vm_compute; lia]|]);
    split; reflexivity.
Qed.

Lemma references_lead_back_witness :
  plain "scan_id" INTEGER ∈ tbl_columns lidar_points /\
  exists parent,
    table_named "lidar_data" = Some parent /\
    declared_before parent lidar_points /\
    primary_keys parent = ["id"] /\
    "id" = "id".
Proof.
  apply (references_lead_back lidar_points
           (references "scan_id" "lidar_data" "id")); by_computing.
Defined.

Lemma refers_same_side db side x y :
  side = calibration_side \/ side = scan_side ->
  x.1 ∈ run_metadata :: side -> refers db x y -> y.1 ∈ run_metadata :: side.
Proof.
  destruct x as [t r], y as [t' r'].
  intros Hside Hx (Hs & fk & Hfk & Hname & _). cbn [fst snd] in *.
  destruct Hside as [-> | ->]; each_table Hx; simpl in Hfk; each_table Hfk;
    each_table Hs; simpl in Hname; try discriminate; by_computing.
Qed.

(** X11: following references never leaves a side.  From a row of a
    calibration table ([calibration_steps], [calibration_imu_data],
    [calibration_lidar_data], [calibration_lidar_points]) the rows named, and
    the rows those name, are rows of calibration tables or of
    [run_metadata], never of a scan table; and from a row of a scan table
    ([imu_data], [lidar_data], [lidar_points], [stereo_images]) they are rows
    of scan tables or of [run_metadata]. *)
Theorem references_stay_on_their_side db side x y :
  side = calibration_side \/ side = scan_side ->
  x.1 ∈ run_metadata :: side -> rtc (refers db) x y ->
  y.1 ∈ run_metadata :: side.
Proof.
  intros Hside Hx Hxy. induction Hxy as [x | x y z Hstep _ IH]; [exact Hx|].
  apply IH. exact (refers_same_side db side x y Hside Hx Hstep).
Qed.

Lemma references_stay_on_their_side_witness :
  rtc (refers example_db)
    (calibration_imu_data, example_calibration_row)
    (run_metadata, example_run) /\
  run_metadata ∈ run_metadata :: calibration_side.
Proof.
  assert (Hxy : rtc (refers example_db)
                  (calibration_imu_data, example_calibration_row)
                  (run_metadata, example_run)).
  { apply (rtc_l _ _ (calibration_steps, example_step)).
    - split; [by_computing|].
      exists (references "step_id" "calibration_steps" "id").
      repeat split; by_computing.
    - apply rtc_once. split; [by_computing|].
      exists (references "run_id" "run_metadata" "id").
      repeat split; by_computing. }
  split; [exact Hxy|].
  apply (references_stay_on_their_side example_db calibration_side
           (calibration_imu_data, example_calibration_row)
           (run_metadata, example_run));
    [now left | by_computing | exact Hxy].
Defined.

(** * Events and their text *)



Section Texts.
Context `{Platform}.

Lemma record_line_text t acc gyro mag :
  record_line t acc gyro mag = event_text (event_of t acc gyro mag).
Proof.
  destruct acc as [[a1 a2] a3], gyro as [[g1 g2] g3].
  unfold record_line, record_head, event_text, event_of, triple, text3, strings3.
  destruct mag as [[[m1 m2] m3]|]; cbn [ev_t ev_acc ev_gyro ev_mag fmap option_fmap option_map];
    rewrite !append_assoc; reflexivity.
Qed.

Lemma event_text_not_error ev : event_text ev <> error_object.
Proof. unfold event_text. simpl. discriminate. Qed.

End Texts.

(** * The typed record of the host *)



























(** The record of the example line: every number with the decimal places of
    the line, and the line written again as it was. *)
Example example_line_sample :
  parse_sample example_line =
    Some {| device_seconds := {| mantissa := 28392819; places := 6 |};
            acceleration := ({| mantissa := 20; places := 4 |},
                             {| mantissa := -9750; places := 4 |},
                             {| mantissa := 1590; places := 4 |});
            gyroscope := ({| mantissa := 2500; places := 4 |},
                          {| mantissa := 625; places := 4 |},
                          {| mantissa := -2500; places := 4 |});
            magnetometer := Some ({| mantissa := -34; places := 1 |},
                                  {| mantissa := 144; places := 1 |},
                                  {| mantissa := 168; places := 1 |}) |} /\
  (serialize_sample <$> parse_sample example_line) = Some example_line.
Proof. split; reflexivity. Qed.

(** * The lines of a run *)

Section Passes.
Context `{Platform}.

Lemma line_for_no_text p line : line_for p line -> no_text line.
Proof.
  intros [[_ ->] | (t & acc & gyro & _ & _ & Hline)].
  - repeat split; discriminate.
  - repeat split; intros ->; discriminate.
Qed.

Lemma passes_lines passes : forall s,
  (forall T, 0 <= T < 2 ^ 64 ->
     json_number (String_double (u64_div_1e6 T) 6) = true) ->
  Forall printable passes ->
  exists k,
    Serial (fold_left (fun s p => loop p s) passes s) = Serial s ++ k /\
    Forall2 line_for (List.filter speaks passes) k.
Proof.
  intros s Ht Hpasses. revert s.
  induction Hpasses as [|p passes (Pa & Pg & Pm) _ IH]; intros s.
  - exists []. split; [now rewrite app_nil_r | constructor].
  - cbn [fold_left List.filter].
    destruct (IH (loop p s)) as (k & Hk & Hlines). rewrite Hk.
    destruct (stamped p) eqn:Hst.
    + destruct (loop_stamped p s Hst) as (acc & gyro & Ha & Hg & ->).
      apply stamped_reads in Hst as Hst'. destruct Hst' as (-> & _).
      eexists (_ :: k).
      split; [cbn [Serial println updateMicros]; now rewrite <- app_assoc|].
      constructor; [|assumption].
      right. exists (u64_div_1e6 (fullMicros (updateMicros (now_us p) s))), acc, gyro.
      repeat split; try assumption.
      rewrite Ha in Pa. rewrite Hg in Pg.
      apply parse_record_line; try assumption; [apply Ht, fullMicros_range|].
      unfold mag_reading. now destruct (magneticFieldAvailable p).
    + rewrite (loop_not_stamped p s Hst). destruct (speaks p) eqn:Hav.
      * exists (error_object :: k).
        split; [cbn [Serial println]; now rewrite <- app_assoc|].
        constructor; [|assumption]. left. split; [|reflexivity].
        split; [exact Hav|].
        destruct (readAcceleration p) as [acc|] eqn:Ha; [|now left].
        destruct (readGyroscope p) as [gyro|] eqn:Hg; [|now right].
        exfalso. unfold stamped in Hst. rewrite Hav in Hst.
        rewrite !bool_decide_eq_true_2 in Hst by eauto. discriminate.
      * now exists k.
Qed.

End Passes.

(** C9: in every pass of [loop] a record, the text of an IMU event, is
    printed exactly when both reads are made and succeed.  When one of them
    fails the pass prints the object [{"error":"sensor read failed"}] and
    does nothing else: the sample is skipped and no time is taken.  When both
    succeed the pass prints the event with the time of the pass and the two
    readings, whatever the magnetometer does: [mag] is in the event with the
    reading of the magnetometer when it was available and read, and is left
    out, the rest of the event being the same, when it was unavailable or
    its read failed. *)
Theorem loop_record_iff_reads_succeed `{Platform} (p : pass) (s : mcu) :
  (emits_record p s <-> reads_succeed p) /\
  (read_fails p -> loop p s = println error_object s) /\
  (forall acc gyro,
     accelerationAvailable p && gyroscopeAvailable p = true ->
     readAcceleration p = Some acc -> readGyroscope p = Some gyro ->
     Serial (loop p s) =
       Serial s ++
       [event_text
          (event_of (fst (getSecondsSinceBoot (now_us p) s)) acc gyro
             (mag_reading p))]) /\
  (forall m,
     mag_reading p = Some m <->
     magneticFieldAvailable p = true /\ readMagneticField p = Some m).
Proof.
  split; [split|split; [|split]].
  - intros [ev Hev].
    destruct (loop_cases p s) as [[_ E] | [[Hfail E] | (acc & gyro & Hav & Ha & Hg)]].
    + rewrite E in Hev. apply (f_equal length) in Hev.
      rewrite length_app in Hev. simpl in Hev. lia.
    + rewrite E in Hev. cbn [Serial println] in Hev.
      apply app_inv_head in Hev.
      apply (f_equal (fun l => List.hd EmptyString l)) in Hev.
      exfalso. apply (event_text_not_error ev). symmetry. exact Hev.
    + split; [assumption|]. rewrite Ha, Hg. eauto.
  - intros (Hav & [acc Ha] & [gyro Hg]). unfold emits_record.
    rewrite (loop_reads_ok p s acc gyro Hav Ha Hg), record_line_text.
    eexists. reflexivity.
  - intros Hfail. now rewrite (loop_read_fails p s Hfail).
  - intros acc gyro Hav Ha Hg.
    rewrite (loop_reads_ok p s acc gyro Hav Ha Hg), record_line_text.
    reflexivity.
  - intros m. unfold mag_reading.
    destruct (magneticFieldAvailable p); [tauto|].
    split; [discriminate | intros [? _]; discriminate].
Qed.

(** C1, as the sketch has it: the output of a run is the line
    [Starting...], the line [IMU.begin() succeeded] or [IMU.begin() failed],
    and then one line for each pass in which data of both sensors was
    available, in the order of the passes: the object
    [{"error":"sensor read failed"}] when a read of the pass failed, and
    otherwise a line that is read as an IMU event, one JSON object with the
    number [t], the arrays [acc] and [gyro] of the readings of the pass, and
    the array [mag] exactly when the magnetometer was available and read,
    provided the time and the readings are written as JSON numbers.  The
    lines of text are written by [setup] only: no line after the second is
    one of them. *)
Theorem serial_lines_known `{Platform} (begin_ok : bool) (passes : list pass) :
  (forall T, 0 <= T < 2 ^ 64 ->
     json_number (String_double (u64_div_1e6 T) 6) = true) ->
  Forall printable passes ->
  exists lines,
    Serial (run begin_ok passes) =
      "Starting..." ::
      (if begin_ok then "IMU.begin() succeeded" else "IMU.begin() failed") ::
      lines /\
    Forall2 line_for (List.filter speaks passes) lines /\
    Forall no_text lines.
Proof.
  intros Ht Hpasses. unfold run.
  destruct (passes_lines passes (setup begin_ok boot) Ht Hpasses)
    as (k & Hk & Hlines).
  exists k. split; [|split; [assumption|]].
  - rewrite Hk. now destruct begin_ok.
  - clear Hk. induction Hlines as [|p line ps k Hline _ IH]; constructor;
      [exact (line_for_no_text p line Hline) | exact IH].
Qed.

Lemma serial_lines_known_witness :
  exists lines,
    Serial (@run fixed_platform true [example_pass; failed_pass; late_pass]) =
      "Starting..." :: "IMU.begin() succeeded" :: lines /\
    Forall2 (@line_for fixed_platform) [example_pass; failed_pass; late_pass]
      lines /\
    Forall no_text lines.
Proof.
  apply (@serial_lines_known fixed_platform true
           [example_pass; failed_pass; late_pass]).
  - intros T _. apply String_fixed_number.
  - repeat apply List.Forall_cons; try apply List.Forall_nil;
      vm_compute; repeat split; reflexivity.
Defined.

(** C1, as stated, fails: the first two lines after boot are plain text, and
    a failed read prints an object that has none of the members of an
    event. *)
Lemma setup_and_error_lines_are_no_events :
  Serial (@run fixed_platform true [failed_pass]) =
    ["Starting..."; "IMU.begin() succeeded"; error_object] /\
  parse_imu_line "Starting..." = None /\
  parse_imu_line "IMU.begin() succeeded" = None /\
  parse_imu_line error_object = None.
Proof. repeat split; reflexivity. Qed.

(** * Indexes *)

(** C6, as the schema document has it: it has no [CREATE INDEX] statement,
    so that none of the seven tables with a nanosecond time stamp has an
    index on it.  The notes of the document ask for an index on
    [pi_timestamp_ns], the time stamp of the five tables of sensor data, and
    on no other column. *)
Theorem timestamped_tables_have_no_index :
  List.filter timestamped schema =
    [run_metadata; calibration_steps; calibration_imu_data;
     calibration_lidar_data; imu_data; lidar_data; stereo_images] /\
  (forall t c, t ∈ schema -> c ∈ timestamp_columns t -> indexed t c = false) /\
  notes_index = ["pi_timestamp_ns"] /\
  List.filter (fun t => bool_decide ("pi_timestamp_ns" ∈ timestamp_columns t))
    schema = sensor_tables.
Proof.
  split; [reflexivity|split; [|split]].
  - intros t c _ _. unfold indexed, create_index.
    apply bool_decide_eq_false_2. apply not_elem_of_nil.
  - reflexivity.
  - vm_compute. reflexivity.
Qed.
